(** * ArtifactGenerator: model parser, artifact generators and config diff

    A shallow embedding of [main.py]: the UML-style model parser
    ([ModelParser]), the two generators ([ConfigXmlGenerator],
    [MetaJsonGenerator]) and the flat configuration differ and patcher
    ([ConfigComparator]).

    Python values are rendered as follows.
    - A [dict] whose iteration order is observable (the model, an element's
      attributes, an output record) is an insertion-ordered association
      list, [Dict].
    - A [dict] that is only read by key, written by key and compared with
      [==] (the two configuration snapshots) is a [gmap string V].
    - A [set] is a [gset]; iterating over it visits every member once in an
      order the language does not fix, so the loop over it takes the
      visiting order as an argument.
    - A raised exception is the [Err] case of [result]. *)

From Stdlib Require Import ZArith Ascii String.
From stdpp Require Import base option list strings gmap fin_maps sorting.

Open Scope string_scope.
Open Scope list_scope.
Set Warnings "-register-all,-clear-no-such-hyp".

(** ** Exceptions *)

Inductive exn : Type :=
  | ValueError (msg : string)
  | KeyError (key : string)
  | RecursionError.

Inductive result (A : Type) : Type :=
  | Ok (a : A)
  | Err (e : exn).
Arguments Ok {A} a.
Arguments Err {A} e.

Definition key_error (e : exn) : Prop := ∃ k, e = KeyError k.

Definition bind {A B : Type} (r : result A) (k : A → result B) : result B :=
  match r with
  | Ok a => k a
  | Err e => Err e
  end.

Notation "' p ← r ; k" := (bind r (λ p, k))
  (at level 20, p pattern, r at level 100, k at level 200,
   right associativity, only parsing).
Notation "x ← r ; k" := (bind r (λ x, k))
  (at level 20, r at level 100, k at level 200,
   right associativity, only parsing).

(** ** Insertion-ordered dictionaries *)

Definition Dict (V : Type) : Type := list (string * V).

Fixpoint dict_get {V : Type} (k : string) (d : Dict V) : option V :=
  match d with
  | [] => None
  | (k', v) :: d' => if decide (k = k') then Some v else dict_get k d'
  end.

(** [d[k] = v]: a key already present keeps its place. *)
Fixpoint dict_set {V : Type} (k : string) (v : V) (d : Dict V) : Dict V :=
  match d with
  | [] => [(k, v)]
  | (k', v') :: d' =>
      if decide (k = k') then (k, v) :: d' else (k', v') :: dict_set k v d'
  end.

Definition dict_keys {V : Type} (d : Dict V) : list string := map fst d.
Definition dict_values {V : Type} (d : Dict V) : list V := map snd d.

(** [d[k]], raising [KeyError] on a missing key. *)
Definition getitem {V : Type} (d : Dict V) (k : string) : result V :=
  match dict_get k d with
  | Some v => Ok v
  | None => Err (KeyError k)
  end.

(** [d.get(k, dflt)] *)
Definition get_or {V : Type} (d : Dict V) (k : string) (dflt : V) : V :=
  default dflt (dict_get k d).

(** A [for] loop whose body may raise, threading the loop state. *)
Fixpoint for_each {S A : Type} (body : S → A → result S) (s : S) (l : list A)
    : result S :=
  match l with
  | [] => Ok s
  | a :: l' => s' ← body s a; for_each body s' l'
  end.

(** A list built by a loop whose element computation may raise. *)
Fixpoint map_result {A B : Type} (f : A → result B) (l : list A)
    : result (list B) :=
  match l with
  | [] => Ok []
  | a :: l' => b ← f a; bs ← map_result f l'; Ok (b :: bs)
  end.

(** ** Strings *)

Definition ascii_lower (c : ascii) : ascii :=
  let n := nat_of_ascii c in
  if (65 <=? n)%nat && (n <=? 90)%nat then ascii_of_nat (n + 32) else c.

(** [s.lower()] on the ASCII letters; no other character lowers to a letter
    of ["true"], the one string the result is compared with. *)
Fixpoint lower (s : string) : string :=
  match s with
  | EmptyString => EmptyString
  | String c s' => String (ascii_lower c) (lower s')
  end.

Definition is_dot (c : ascii) : bool := Ascii.eqb c ".".

(** [".." in s] *)
Fixpoint contains_dotdot (s : string) : bool :=
  match s with
  | EmptyString => false
  | String c s' =>
      match s' with
      | String c' _ => (is_dot c && is_dot c') || contains_dotdot s'
      | EmptyString => false
      end
  end.

Definition push_char (c : ascii) (chunks : list string) : list string :=
  match chunks with
  | chunk :: rest => String c chunk :: rest
  | [] => [String c EmptyString]
  end.

(** [s.split("..")]: scan from the left, cut at each [".."] met and resume
    after it. *)
Fixpoint split_dotdot (s : string) : list string :=
  match s with
  | EmptyString => [EmptyString]
  | String c s' =>
      match s' with
      | String c' s'' =>
          if is_dot c && is_dot c' then EmptyString :: split_dotdot s''
          else push_char c (split_dotdot s')
      | EmptyString => push_char c (split_dotdot s')
      end
  end.

(** [l[0]] and [l[-1]] on the result of a split, which is never empty. *)
Definition first_item (l : list string) : string := default EmptyString (head l).
Definition last_item (l : list string) : string := default EmptyString (last l).

(** ** xml.etree.ElementTree elements *)

Inductive Element : Type :=
  mkElement (tag : string) (attrib : Dict string) (text : option string)
            (children : list Element).

Definition tag (e : Element) : string :=
  match e with mkElement t _ _ _ => t end.
Definition attrib (e : Element) : Dict string :=
  match e with mkElement _ a _ _ => a end.
Definition text (e : Element) : option string :=
  match e with mkElement _ _ x _ => x end.
Definition children (e : Element) : list Element :=
  match e with mkElement _ _ _ c => c end.

(** [ET.Element(tag)] and an attribute's [ET.SubElement] with its text. *)
Definition new_element (t : string) (kids : list Element) : Element :=
  mkElement t [] None kids.
Definition text_element (t : string) (x : string) : Element :=
  mkElement t [] (Some x) [].

(** ** Model classes *)

Record Attribute := { attr_name : string; attr_type : string }.

(** An entry of [child_classes]: [(child_name, min, max)]. *)
Definition ChildRef : Type := string * string * string.
Definition child_name (r : ChildRef) : string := r.1.1.
Definition child_min (r : ChildRef) : string := r.1.2.
Definition child_max (r : ChildRef) : string := r.2.

Record ClassModel := {
  name : string;
  is_root : bool;
  documentation : string;
  attributes : list Attribute;
  child_classes : list ChildRef
}.

Record Aggregation := {
  source : string;
  target : string;
  source_multiplicity : string;
  target_multiplicity : string
}.

(** ** ModelParser *)

Module ModelParser.

(** [for attr in elem: if attr.tag == "Attribute": ...append(...)] *)
Definition read_attribute (attrs : list Attribute) (attr : Element)
    : result (list Attribute) :=
  if decide (tag attr = "Attribute") then
    n ← getitem (attrib attr) "name";
    t ← getitem (attrib attr) "type";
    Ok (attrs ++ [{| attr_name := n; attr_type := t |}])
  else Ok attrs.

Definition read_class (elem : Element) : result ClassModel :=
  class_name ← getitem (attrib elem) "name";
  let is_root :=
    bool_decide (lower (get_or (attrib elem) "isRoot" "false") = "true") in
  let documentation := get_or (attrib elem) "documentation" "" in
  attrs ← for_each read_attribute [] (children elem);
  Ok {| name := class_name; is_root := is_root;
        documentation := documentation;
        attributes := attrs; child_classes := [] |}.

Definition read_aggregation (elem : Element) : result Aggregation :=
  s ← getitem (attrib elem) "source";
  t ← getitem (attrib elem) "target";
  sm ← getitem (attrib elem) "sourceMultiplicity";
  tm ← getitem (attrib elem) "targetMultiplicity";
  Ok {| source := s; target := t;
        source_multiplicity := sm; target_multiplicity := tm |}.

(** The body of [for elem in root]. *)
Definition read_element (st : Dict ClassModel * list Aggregation)
    (elem : Element) : result (Dict ClassModel * list Aggregation) :=
  let '(classes, aggregations) := st in
  if decide (tag elem = "Class") then
    class_model ← read_class elem;
    Ok (dict_set (name class_model) class_model classes, aggregations)
  else if decide (tag elem = "Aggregation") then
    agg ← read_aggregation elem;
    Ok (classes, aggregations ++ [agg])
  else Ok st.

(** The tuple appended to [child_classes] for an aggregation. *)
Definition child_ref (agg : Aggregation) : ChildRef :=
  let m := source_multiplicity agg in
  (source agg,
   first_item (split_dotdot m),
   if contains_dotdot m then last_item (split_dotdot m) else m).

Definition add_child (c : ClassModel) (r : ChildRef) : ClassModel :=
  {| name := name c; is_root := is_root c;
     documentation := documentation c;
     attributes := attributes c;
     child_classes := child_classes c ++ [r] |}.

(** The body of [for agg in aggregations]: the target's object is mutated
    in place, so its entry keeps its position in [classes]. *)
Definition resolve (classes : Dict ClassModel) (agg : Aggregation)
    : Dict ClassModel :=
  match dict_get (target agg) classes with
  | Some target_class =>
      dict_set (target agg) (add_child target_class (child_ref agg)) classes
  | None => classes
  end.

(** [parse], from the element [ET.fromstring] returns. *)
Definition parse (root : Element)
    : result (Dict ClassModel * list Aggregation) :=
  '(classes, aggregations) ← for_each read_element ([], []) (children root);
  Ok (foldl resolve classes aggregations, aggregations).

(** What one element adds to the list of aggregations. *)
Definition aggregation_of (elem : Element) : result (list Aggregation) :=
  if decide (tag elem = "Aggregation") then
    agg ← read_aggregation elem; Ok [agg]
  else Ok [].

(** The root element with other children. *)
Definition with_children (root : Element) (kids : list Element) : Element :=
  mkElement (tag root) (attrib root) (text root) kids.

End ModelParser.

(** ** ConfigXmlGenerator *)

Module ConfigXmlGenerator.

Definition missing_root : exn := ValueError "No root class found in the model".

(** [build_xml]; [depth] is the number of nested calls the interpreter
    still allows, and a call beyond it raises [RecursionError]. *)
Fixpoint build_xml (model : Dict ClassModel) (depth : nat)
    (class_name : string) : result Element :=
  match depth with
  | O => Err RecursionError
  | S depth' =>
      class_model ← getitem model class_name;
      let leaves :=
        map (λ attr, text_element (attr_name attr) (attr_type attr))
            (attributes class_model) in
      subtrees ← map_result
                   (λ r, build_xml model depth' (child_name r))
                   (child_classes class_model);
      Ok (new_element class_name (leaves ++ subtrees))
  end.

(** [generate], up to the element tree handed to [ET.indent] and
    [ET.tostring]: the choice of the root class and the tree [root_elem]
    built from it.  The two library calls follow in [generate_xml]. *)
Definition generate (depth : nat) (model : Dict ClassModel)
    : result Element :=
  match List.find is_root (dict_values model) with
  | None => Err missing_root
  | Some root_class => build_xml model depth (name root_class)
  end.

End ConfigXmlGenerator.

(** ** The text of the configuration tree *)

(** [c in s], for a character. *)
Fixpoint has_char (c : ascii) (s : string) : bool :=
  match s with
  | EmptyString => false
  | String c' s' => Ascii.eqb c c' || has_char c s'
  end.

(** [elem.iter()]: the tags of a tree, in document order. *)
Fixpoint element_tags (elem : Element) : list string :=
  match elem with
  | mkElement t _ _ kids => t :: concat (map element_tags kids)
  end.

(** A tag that opens with a brace names a namespace, up to its last closing
    brace.  [ET.tostring] unpacks [tag[1:].rsplit("}", 1)] into namespace
    and local name, which raises when no closing brace follows the first
    character. *)
Definition unclosed_namespace (qname : string) : bool :=
  match qname with
  | String c rest => Ascii.eqb c "{" && negb (has_char "}" rest)
  | EmptyString => false
  end.

Definition unpack_error : exn :=
  ValueError "not enough values to unpack (expected 2, got 1)".

(** [ET.tostring] computes the serialized name of every tag of the tree
    before it writes anything. *)
Definition check_qnames (tree : Element) : result unit :=
  for_each (λ _ qname,
              if unclosed_namespace qname then Err unpack_error else Ok tt)
           tt (element_tags tree).

Section Serializer.

(** What the library does besides is taken as it comes: [indent] is
    [ET.indent] on the tree, which lays it out in place or raises, and
    [write_xml] is the writing of [ET.tostring], which gives the text of
    the tree so laid out or raises.  Both meet the recursion limit on a
    tree that is deep enough. *)
Variable indent : Element → result unit.
Variable write_xml : Element → result string.

(** The whole of [ConfigXmlGenerator.generate]. *)
Definition generate_xml (depth : nat) (model : Dict ClassModel)
    : result string :=
  root_elem ← ConfigXmlGenerator.generate depth model;
  _ ← indent root_elem;
  _ ← check_qnames root_elem;
  write_xml root_elem.

End Serializer.

(** ** MetaJsonGenerator *)

Inductive json : Type :=
  | JStr (s : string)
  | JBool (b : bool)
  | JList (l : list json)
  | JDict (d : list (string * json)).

Module MetaJsonGenerator.

Definition attribute_parameter (attr : Attribute) : json :=
  JDict [("name", JStr (attr_name attr)); ("type", JStr (attr_type attr))].

Definition child_parameter (r : ChildRef) : json :=
  JDict [("name", JStr (child_name r)); ("type", JStr "class")].

Definition parameters_of (class_model : ClassModel) : list json :=
  map attribute_parameter (attributes class_model) ++
  map child_parameter (child_classes class_model).

(** The body of [for class_name, class_model in model.items()]. *)
Definition class_entry (class_name : string) (class_model : ClassModel)
    : Dict json :=
  let entry :=
    [("class", JStr class_name);
     ("documentation", JStr (documentation class_model));
     ("isRoot", JBool (is_root class_model));
     ("parameters", JList (parameters_of class_model))] in
  match child_classes class_model with
  | r :: _ =>
      dict_set "max" (JStr (child_max r))
        (dict_set "min" (JStr (child_min r)) entry)
  | [] => entry
  end.

(** [generate], up to the list handed to [json.dumps]. *)
Definition generate (model : Dict ClassModel) : list (Dict json) :=
  map (λ kv, class_entry kv.1 kv.2) model.

End MetaJsonGenerator.

(** ** Python equality on values

    [a == b] and [a != b] are the value type's own methods.  The only law
    used is that a value equals itself, which is also what a container
    comparison assumes when it meets the same object on both sides.  A
    float NaN, which differs from itself, is no such value: the snapshots
    considered hold none. *)

Class PyEq (V : Type) := {
  py_eq : V → V → bool;
  py_eq_refl : ∀ v, py_eq v v = true
}.

Definition py_ne `{PyEq V} (a b : V) : bool := negb (py_eq a b).

(** The scalars [json.load] produces, floats apart: [None], [bool], [int]
    and [str].  [bool] is a subclass of [int], so [True == 1]. *)
Inductive scalar : Type :=
  | SNone
  | SBool (b : bool)
  | SInt (z : Z)
  | SStr (s : string).

Definition scalar_eq (a b : scalar) : bool :=
  match a, b with
  | SNone, SNone => true
  | SBool x, SBool y => Z.eqb (Z.b2z x) (Z.b2z y)
  | SBool x, SInt y => Z.eqb (Z.b2z x) y
  | SInt x, SBool y => Z.eqb x (Z.b2z y)
  | SInt x, SInt y => Z.eqb x y
  | SStr s, SStr t => bool_decide (s = t)
  | _, _ => false
  end.

Definition scalar_eq_refl (v : scalar) : scalar_eq v v = true :=
  match v with
  | SNone => eq_refl
  | SBool b => Z.eqb_refl (Z.b2z b)
  | SInt z => Z.eqb_refl z
  | SStr s => bool_decide_eq_true_2 (s = s) eq_refl
  end.

#[export] Instance scalar_PyEq : PyEq scalar :=
  {| py_eq := scalar_eq; py_eq_refl := scalar_eq_refl |}.

(** ** ConfigComparator *)

Module ConfigComparator.

(** The class of a key, as the spec names the four outcomes. *)
Inductive key_class : Type := Added | Deleted | Updated | Unchanged.

#[export] Instance key_class_eq_dec : EqDecision key_class.
Proof. solve_decision. Defined.

Section Comparator.
Context {V : Type} `{PyEq V}.

(** The entries of the three buckets: [{"key", "value"}], a bare key, and
    [{"key", "from", "to"}]. *)
Record Addition := { add_key : string; add_value : V }.
Record Update := { upd_key : string; upd_from : V; upd_to : V }.

Record Delta := {
  additions : list Addition;
  deletions : list string;
  updates : list Update
}.

(** [ks] is a visiting order of the set [s]. *)
Definition iterates (s : gset string) (ks : list string) : Prop :=
  NoDup ks ∧ list_to_set ks = s.

(** [all_keys = set(config.keys()).union(set(patched_config.keys()))] *)
Definition all_keys (config patched_config : gmap string V) : gset string :=
  dom config ∪ dom patched_config.

(** One turn of [for key in all_keys].  A key in neither mapping would
    raise at [config[key]]; no member of [all_keys] is such a key, and the
    turn leaves the buckets alone there. *)
Definition compare_step (config patched_config : gmap string V)
    (d : Delta) (key : string) : Delta :=
  match config !! key, patched_config !! key with
  | None, Some v =>
      {| additions := additions d ++ [{| add_key := key; add_value := v |}];
         deletions := deletions d;
         updates := updates d |}
  | Some _, None =>
      {| additions := additions d;
         deletions := deletions d ++ [key];
         updates := updates d |}
  | Some a, Some b =>
      if py_ne a b then
        {| additions := additions d;
           deletions := deletions d;
           updates := updates d ++
             [{| upd_key := key; upd_from := a; upd_to := b |}] |}
      else d
  | None, None => d
  end.

Definition empty_delta : Delta :=
  {| additions := []; deletions := []; updates := [] |}.

(** [compare], with the visiting order [ks] of [all_keys] made explicit. *)
Definition compare (ks : list string) (config patched_config : gmap string V)
    : Delta :=
  foldl (compare_step config patched_config) empty_delta ks.

Definition apply_deletion (result : gmap string V) (key : string)
    : gmap string V :=
  if decide (is_Some (result !! key)) then delete key result else result.

Definition apply_update (result : gmap string V) (u : Update)
    : gmap string V :=
  <[upd_key u := upd_to u]> result.

Definition apply_addition (result : gmap string V) (a : Addition)
    : gmap string V :=
  <[add_key a := add_value a]> result.

Definition apply_delta (config : gmap string V) (delta : Delta)
    : gmap string V :=
  let result := config in
  let result := foldl apply_deletion result (deletions delta) in
  let result := foldl apply_update result (updates delta) in
  let result := foldl apply_addition result (additions delta) in
  result.

(** [a == b] on two dicts: same length, and every key of [a] is a key of
    [b] with an equal value. *)
Definition dict_eq (a b : gmap string V) : bool :=
  bool_decide (size a = size b) &&
  forallb (λ kv, match b !! kv.1 with
                 | Some w => py_eq kv.2 w
                 | None => false
                 end) (map_to_list a).

Definition classify (config patched_config : gmap string V) (key : string)
    : option key_class :=
  match config !! key, patched_config !! key with
  | None, Some _ => Some Added
  | Some _, None => Some Deleted
  | Some a, Some b => if py_ne a b then Some Updated else Some Unchanged
  | None, None => None
  end.

Definition addition_keys (d : Delta) : list string :=
  map add_key (additions d).
Definition update_keys (d : Delta) : list string :=
  map upd_key (updates d).

(** What an entry of a bucket records of the two mappings. *)
Definition addition_ok (config patched_config : gmap string V)
    (a : Addition) : Prop :=
  config !! add_key a = None ∧
  patched_config !! add_key a = Some (add_value a).

Definition update_ok (config patched_config : gmap string V)
    (u : Update) : Prop :=
  config !! upd_key u = Some (upd_from u) ∧
  patched_config !! upd_key u = Some (upd_to u) ∧
  py_ne (upd_from u) (upd_to u) = true.

End Comparator.

Arguments Addition : clear implicits.
Arguments Update : clear implicits.
Arguments Delta : clear implicits.

End ConfigComparator.

(** ** Well-formed models and the shape of the generated tree *)

(** A dict holds each key once. *)
Definition dict_ok {V : Type} (d : Dict V) : Prop := NoDup (dict_keys d).

(** Every class is stored under its own name, as [parse] stores it. *)
Definition named (model : Dict ClassModel) : Prop :=
  Forall (λ kv, name kv.2 = kv.1) model.

(** Every child reference names a class of the model. *)
Definition closed (model : Dict ClassModel) : Prop :=
  Forall (λ kv, Forall (λ r, is_Some (dict_get (child_name r) model))
                       (child_classes kv.2)) model.

(** Containment has no cycle: some rank strictly decreases from each class
    to each of its children. *)
Definition acyclic (model : Dict ClassModel) (rank : string → nat) : Prop :=
  Forall (λ kv, Forall (λ r, rank (child_name r) < rank kv.1)
                       (child_classes kv.2)) model.

(** [reaches model n m]: class name [m] is met when expanding [n] along
    child references. *)
Inductive reaches (model : Dict ClassModel) : string → string → Prop :=
  | reaches_here n : reaches model n n
  | reaches_child n c r m :
      dict_get n model = Some c →
      r ∈ child_classes c →
      reaches model (child_name r) m →
      reaches model n m.

(** The tree of a class, as the spec describes it: a node labelled with the
    class name, holding one leaf per attribute (labelled with the
    attribute's name, with its type as text) in stored order, followed by
    one tree per entry of [child_classes], in stored order, each the tree of
    the child class. *)
Inductive expansion (model : Dict ClassModel) : string → Element → Prop :=
  | expansion_node class_name class_model subtrees :
      dict_get class_name model = Some class_model →
      Forall2 (λ r t, expansion model (child_name r) t)
              (child_classes class_model) subtrees →
      expansion model class_name
        (mkElement class_name [] None
           (map (λ a, mkElement (attr_name a) [] (Some (attr_type a)) [])
                (attributes class_model) ++ subtrees)).

(** ** Example descriptions *)

Definition xml_class (n : string) (more : Dict string) (attrs : list Element)
    : Element :=
  mkElement "Class" (("name", n) :: more) None attrs.
Definition xml_attribute (n t : string) : Element :=
  mkElement "Attribute" [("name", n); ("type", t)] None [].
Definition xml_aggregation (src tgt sm tm : string) : Element :=
  mkElement "Aggregation"
    [("source", src); ("target", tgt);
     ("sourceMultiplicity", sm); ("targetMultiplicity", tm)] None [].

(** The robot of the spec: an engine (["1..1"]) and wheels (["0..4"]). *)
Definition robot_xml : Element :=
  mkElement "Model" [] None
    [xml_class "Robot" [("isRoot", "true"); ("documentation", "A robot")]
       [xml_attribute "serial" "string"];
     xml_class "Engine" [("isRoot", "false")] [xml_attribute "power" "int"];
     xml_class "Wheel" [] [xml_attribute "radius" "float"];
     xml_aggregation "Engine" "Robot" "1..1" "1";
     xml_aggregation "Wheel" "Robot" "0..4" "1"].

Definition robot_class : ClassModel :=
  {| name := "Robot"; is_root := true; documentation := "A robot";
     attributes := [{| attr_name := "serial"; attr_type := "string" |}];
     child_classes := [("Engine", "1", "1"); ("Wheel", "0", "4")] |}.

Definition robot_model : Dict ClassModel :=
  [("Robot", robot_class);
   ("Engine", {| name := "Engine"; is_root := false; documentation := "";
                 attributes := [{| attr_name := "power"; attr_type := "int" |}];
                 child_classes := [] |});
   ("Wheel", {| name := "Wheel"; is_root := false; documentation := "";
                attributes := [{| attr_name := "radius";
                                  attr_type := "float" |}];
                child_classes := [] |})].

Definition robot_aggregations : list Aggregation :=
  [{| source := "Engine"; target := "Robot";
      source_multiplicity := "1..1"; target_multiplicity := "1" |};
   {| source := "Wheel"; target := "Robot";
      source_multiplicity := "0..4"; target_multiplicity := "1" |}].

(** A rank for models whose root holds only childless classes. *)
Definition root_rank (root : string) (n : string) : nat :=
  if decide (n = root) then 1 else 0.

(** One more aggregation for the robot, whose target is no class. *)
Definition stray_xml : Element := xml_aggregation "Wheel" "Car" "4" "1".
Definition stray_aggregation : Aggregation :=
  {| source := "Wheel"; target := "Car";
     source_multiplicity := "4"; target_multiplicity := "1" |}.

(** A root holding a class that holds itself, then a class that does not
    exist. *)
Definition cyclic_xml : Element :=
  mkElement "Model" [] None
    [xml_class "Root" [("isRoot", "true")] [];
     xml_class "A" [] [];
     xml_aggregation "A" "Root" "1" "1";
     xml_aggregation "Ghost" "Root" "1" "1";
     xml_aggregation "A" "A" "1" "1"].

Definition cyclic_root : ClassModel :=
  {| name := "Root"; is_root := true; documentation := "";
     attributes := [];
     child_classes := [("A", "1", "1"); ("Ghost", "1", "1")] |}.

Definition cyclic_model : Dict ClassModel :=
  [("Root", cyclic_root);
   ("A", {| name := "A"; is_root := false; documentation := "";
            attributes := []; child_classes := [("A", "1", "1")] |})].

(** A root holding only a class that does not exist. *)
Definition ghost_xml : Element :=
  mkElement "Model" [] None
    [xml_class "Root" [("isRoot", "true")] [];
     xml_aggregation "Ghost" "Root" "1" "1"].

Definition ghost_root : ClassModel :=
  {| name := "Root"; is_root := true; documentation := "";
     attributes := []; child_classes := [("Ghost", "1", "1")] |}.

Definition ghost_model : Dict ClassModel := [("Root", ghost_root)].

Definition ghost_aggregation : Aggregation :=
  {| source := "Ghost"; target := "Root";
     source_multiplicity := "1"; target_multiplicity := "1" |}.

(** A single root class whose name opens a namespace and never closes
    it, as in [<Class name="{x" isRoot="true"/>]. *)
Definition brace_xml : Element :=
  mkElement "Model" [] None [xml_class "{x" [("isRoot", "true")] []].

Definition brace_class : ClassModel :=
  {| name := "{x"; is_root := true; documentation := "";
     attributes := []; child_classes := [] |}.

Definition brace_model : Dict ClassModel := [("{x", brace_class)].

(** ** Key order and example snapshots *)

(** The order of [str] keys, by code point. *)
Definition key_le (s t : string) : Prop := String.leb s t = true.

Definition ex_config : gmap string scalar :=
  {["a" := SInt 1; "b" := SInt 2]}.
Definition ex_patched : gmap string scalar :=
  {["b" := SInt 3; "c" := SInt 4]}.

(** ** Further vocabulary for the properties of the code *)

(** A computation that raised nothing. *)
Definition is_Ok {A : Type} (r : result A) : Prop := ∃ a, r = Ok a.

(** An [Attribute] child carries the two attributes [parse] indexes. *)
Definition complete_attribute (attr : Element) : Prop :=
  tag attr = "Attribute" →
  is_Some (dict_get "name" (attrib attr)) ∧
  is_Some (dict_get "type" (attrib attr)).

(** A [Class] or [Aggregation] element carries every attribute [parse]
    indexes; an element with another tag needs nothing. *)
Definition complete_element (elem : Element) : Prop :=
  (tag elem = "Class" →
   is_Some (dict_get "name" (attrib elem)) ∧
   Forall complete_attribute (children elem)) ∧
  (tag elem = "Aggregation" →
   Forall (λ k, is_Some (dict_get k (attrib elem)))
          ["source"; "target"; "sourceMultiplicity"; "targetMultiplicity"]).

(** The members of a list in the order of their first occurrence. *)
Definition first_occurrences (l : list string) : list string :=
  reverse (remove_dups (reverse l)).

(** A class with its list of child references replaced. *)
Definition set_child_classes (c : ClassModel) (refs : list ChildRef)
    : ClassModel :=
  {| name := name c; is_root := is_root c;
     documentation := documentation c;
     attributes := attributes c;
     child_classes := refs |}.

(** The [Class] elements among the children of the root. *)
Definition class_elements (root : Element) : list Element :=
  filter (λ e, tag e = "Class") (children root).

(** A description with an element that is neither class nor aggregation. *)
Definition noisy_xml : Element :=
  mkElement "Model" [] None
    (take 2 (children robot_xml) ++
     mkElement "Note" [("text", "ignored")] None [] ::
     drop 2 (children robot_xml)).

(** A description that declares [Robot] twice. *)
Definition twice_xml : Element :=
  mkElement "Model" [] None
    [xml_class "Robot" [("isRoot", "TRUE")] [xml_attribute "serial" "string"];
     xml_class "Arm" [] [];
     xml_class "Robot" [("documentation", "second")] [];
     xml_aggregation "Arm" "Robot" "2" "1"].

Definition twice_model : Dict ClassModel :=
  [("Robot", {| name := "Robot"; is_root := false; documentation := "second";
                attributes := [];
                child_classes := [("Arm", "2", "2")] |});
   ("Arm", {| name := "Arm"; is_root := false; documentation := "";
              attributes := []; child_classes := [] |})].

Definition twice_aggregations : list Aggregation :=
  [{| source := "Arm"; target := "Robot";
      source_multiplicity := "2"; target_multiplicity := "1" |}].

(** * Properties of multiplicity parsing *)

Section Multiplicity.
Implicit Types (s : string) (c : ascii).

Lemma string_ind2 (P : string → Prop) :
  P EmptyString →
  (∀ c, P (String c EmptyString)) →
  (∀ c c' s, P s → P (String c' s) → P (String c (String c' s))) →
  ∀ s, P s.
Proof.
  intros H0 H1 H2.
  assert (Hboth : ∀ s, P s ∧ ∀ c, P (String c s)).
  { induction s as [|c s [IHs IHc]]; split; auto. }
  intros s. apply Hboth.
Qed.

(** The equations of the two scans. *)
Lemma split_dotdot_cons2 c c' s :
  split_dotdot (String c (String c' s)) =
  if is_dot c && is_dot c' then EmptyString :: split_dotdot s
  else push_char c (split_dotdot (String c' s)).
Proof. reflexivity. Qed.

Lemma contains_dotdot_cons2 c c' s :
  contains_dotdot (String c (String c' s)) =
  (is_dot c && is_dot c') || contains_dotdot (String c' s).
Proof. reflexivity. Qed.

Lemma split_dotdot_nonempty s : split_dotdot s ≠ [].
Proof.
  destruct s as [|c [|c' s]]; try done.
  rewrite split_dotdot_cons2.
  destruct (is_dot c && is_dot c'); [done|].
  by destruct (split_dotdot (String c' s)).
Qed.

Lemma first_item_push c l :
  l ≠ [] → first_item (push_char c l) = String c (first_item l).
Proof. by destruct l. Qed.

Lemma last_item_cons (x : string) l :
  l ≠ [] → last_item (x :: l) = last_item l.
Proof. by destruct l. Qed.

Lemma last_item_snoc l (x : string) : last_item (l ++ [x]) = x.
Proof. unfold last_item. by rewrite last_snoc. Qed.

Lemma push_char_snoc c l (x : string) :
  l ≠ [] → push_char c (l ++ [x]) = push_char c l ++ [x].
Proof. by destruct l. Qed.

Lemma last_item_push c l :
  1 < length l → last_item (push_char c l) = last_item l.
Proof. destruct l as [|x [|y l]]; simpl; try lia. done. Qed.

(** A string without [".."] is its own single chunk. *)
Lemma split_dotdot_whole s :
  contains_dotdot s = false → split_dotdot s = [s].
Proof.
  induction s as [| c | c c' s _ IH] using string_ind2; try done.
  rewrite contains_dotdot_cons2, split_dotdot_cons2.
  intros [Hd Hc]%orb_false_iff. rewrite Hd, (IH Hc). done.
Qed.

(** The first chunk ends where the leftmost [".."] starts. *)
Lemma split_dotdot_first s :
  contains_dotdot s = true →
  ∃ rest, s = first_item (split_dotdot s) +:+ ".." +:+ rest ∧
          contains_dotdot (first_item (split_dotdot s) +:+ ".") = false.
Proof.
  induction s as [| c | c c' s _ IH] using string_ind2; try done.
  rewrite contains_dotdot_cons2, split_dotdot_cons2.
  destruct (is_dot c && is_dot c') eqn:Hd; simpl orb.
  - intros _. exists s. split; [|done].
    apply andb_true_iff in Hd as [H1 H2].
    apply Ascii.eqb_eq in H1, H2. by subst.
  - intros Hc. destruct (IH Hc) as (rest & Hs & Hno).
    rewrite first_item_push by apply split_dotdot_nonempty.
    exists rest. split; [by rewrite Hs at 1|].
    destruct (first_item (split_dotdot (String c' s))) as [|c1 f].
    + simpl in Hs. injection Hs as -> _.
      change ((is_dot c && is_dot ".") || false = false).
      by rewrite Hd.
    + simpl in Hs. injection Hs as -> _.
      change (contains_dotdot (String c (String c1 (f +:+ "."))) = false).
      rewrite contains_dotdot_cons2, Hd. exact Hno.
Qed.

(** The last chunk starts where the last [".."] cut by the scan ends, and
    holds no [".."] itself. *)
Lemma split_dotdot_last s :
  contains_dotdot s = true →
  ∃ front, s = front +:+ ".." +:+ last_item (split_dotdot s) ∧
           contains_dotdot (last_item (split_dotdot s)) = false ∧
           split_dotdot s =
             split_dotdot front ++ [last_item (split_dotdot s)].
Proof.
  induction s as [| c | c c' s IH0 IH] using string_ind2; try done.
  rewrite contains_dotdot_cons2, split_dotdot_cons2.
  destruct (is_dot c && is_dot c') eqn:Hd; simpl orb.
  - intros _.
    apply andb_true_iff in Hd as [H1 H2].
    apply Ascii.eqb_eq in H1, H2. subst c c'.
    rewrite last_item_cons by apply split_dotdot_nonempty.
    destruct (contains_dotdot s) eqn:Hc.
    + destruct (IH0 eq_refl) as (front & Hs & Hno & Hsplit).
      exists (".." +:+ front). split_and!; [|done|].
      * by rewrite Hs at 1.
      * change (split_dotdot (".." +:+ front))
          with (EmptyString :: split_dotdot front).
        by rewrite Hsplit at 1.
    + rewrite (split_dotdot_whole s Hc). exists EmptyString. done.
  - intros Hc. destruct (IH Hc) as (front & Hs & Hno & Hsplit).
    assert (Hlen : 1 < length (split_dotdot (String c' s))).
    { rewrite Hsplit, length_app. simpl.
      pose proof (split_dotdot_nonempty front).
      destruct (split_dotdot front); simpl; [done|lia]. }
    rewrite last_item_push by done.
    exists (String c front). split_and!; [|done|].
    + by rewrite Hs at 1.
    + rewrite Hsplit at 1.
      rewrite push_char_snoc by apply split_dotdot_nonempty.
      f_equal. destruct front as [|c1 f]; [done|].
      simpl in Hs. injection Hs as -> _.
      by rewrite split_dotdot_cons2, Hd.
Qed.

Import ModelParser.

(** C3. The minimum and maximum of a child reference, from the source
    multiplicity [m] of its aggregation.  Where [m] holds [".."], the
    minimum is what precedes the first [".."] of [m] and the maximum is
    what follows the last [".."] that the split cuts, with no [".."] left
    in it; otherwise both are [m].  The three multiplicities of the spec
    parse as it says. *)
Theorem multiplicity_min_max (src tgt m tm : string) :
  let parsed := λ m,
    let r := child_ref {| source := src; target := tgt;
                          source_multiplicity := m;
                          target_multiplicity := tm |} in
    (child_min r, child_max r) in
  (if contains_dotdot m then
     (∃ rest, m = (parsed m).1 +:+ ".." +:+ rest ∧
              contains_dotdot ((parsed m).1 +:+ ".") = false) ∧
     (∃ front, m = front +:+ ".." +:+ (parsed m).2 ∧
               contains_dotdot (parsed m).2 = false ∧
               split_dotdot m = split_dotdot front ++ [(parsed m).2])
   else parsed m = (m, m)) ∧
  parsed "0..*" = ("0", "*") ∧
  parsed "1" = ("1", "1") ∧
  parsed "1..5" = ("1", "5").
Proof.
  intros parsed. split_and!; [|done..].
  unfold parsed, child_ref, child_min, child_max. simpl.
  destruct (contains_dotdot m) eqn:Hc.
  - split; [by apply split_dotdot_first | by apply split_dotdot_last].
  - by rewrite (split_dotdot_whole m Hc).
Qed.

(** A run of three dots is cut after its first two. *)
Example multiplicity_three_dots :
  child_ref {| source := "Wheel"; target := "Robot";
               source_multiplicity := "1...5";
               target_multiplicity := "1" |} = ("Wheel", "1", ".5").
Proof. reflexivity. Qed.

End Multiplicity.

(** * Properties of the model parser *)

Section DictFacts.
Context {V : Type}.
Implicit Types (d : Dict V) (k : string) (v : V).

Lemma dict_get_set d k k' v :
  dict_get k' (dict_set k v d) =
  if decide (k' = k) then Some v else dict_get k' d.
Proof.
  induction d as [|[k0 v0] d IH]; simpl.
  - by repeat case_decide.
  - destruct (decide (k = k0)) as [->|Hne]; simpl.
    + by repeat case_decide.
    + rewrite IH. repeat case_decide; simplify_eq; done.
Qed.

Lemma dict_get_Some_elem_of d k v :
  dict_get k d = Some v → (k, v) ∈ d.
Proof.
  induction d as [|[k0 v0] d IH]; simpl; [done|].
  case_decide; intros Hg; simplify_eq; [by left | right; by apply IH].
Qed.
End DictFacts.

Section LoopFacts.
Context {S A : Type} (body : S → A → result S).

Lemma for_each_cons (a : A) (l : list A) (s : S) :
  for_each body s (a :: l) = (s' ← body s a; for_each body s' l).
Proof. reflexivity. Qed.

Lemma for_each_app (l1 l2 : list A) (s : S) :
  for_each body s (l1 ++ l2) =
  (s' ← for_each body s l1; for_each body s' l2).
Proof.
  revert s. induction l1 as [|a l1 IH]; intros s; simpl; [done|].
  destruct (body s a); simpl; [apply IH | done].
Qed.
End LoopFacts.

Section ParserProperties.
Import ModelParser.
Implicit Types (classes model : Dict ClassModel) (aggs : list Aggregation).
Implicit Types (elem : Element) (agg : Aggregation).

(** *** First pass *)

Lemma read_element_inv classes aggs elem classes' aggs' :
  read_element (classes, aggs) elem = Ok (classes', aggs') →
  ∃ new, aggs' = aggs ++ new ∧
         aggregation_of elem = Ok new ∧
         (∀ aggs0, read_element (classes, aggs0) elem =
                   Ok (classes', aggs0 ++ new)) ∧
         (∀ n c, dict_get n classes' = Some c →
                 dict_get n classes = Some c ∨ child_classes c = []).
Proof.
  unfold read_element, aggregation_of.
  destruct (decide (tag elem = "Class")) as [Hc|Hc].
  - rewrite decide_False by (rewrite Hc; discriminate).
    destruct (read_class elem) as [cm|e] eqn:Hr; simpl; [|done].
    intros [= <- <-]. exists []. rewrite app_nil_r.
    split_and!; try done.
    + intros aggs0. by rewrite app_nil_r.
    + intros n c. rewrite dict_get_set. case_decide; [|by left].
      intros [= <-]. right.
      unfold read_class in Hr.
      destruct (getitem (attrib elem) "name"); simpl in Hr; [|done].
      destruct (for_each read_attribute [] (children elem));
        simpl in Hr; [|done].
      by injection Hr as <-.
  - destruct (decide (tag elem = "Aggregation")) as [Ha|Ha].
    + destruct (read_aggregation elem) as [agg|e]; simpl; [|done].
      intros [= <- <-]. exists [agg]. split_and!; try done. by left.
    + intros [= <- <-]. exists []. rewrite app_nil_r.
      split_and!; try done.
      * intros aggs0. by rewrite app_nil_r.
      * by left.
Qed.

Lemma first_pass_inv elems classes aggs classes' aggs' :
  for_each read_element (classes, aggs) elems = Ok (classes', aggs') →
  ∃ new, aggs' = aggs ++ new ∧
         (∀ aggs0, for_each read_element (classes, aggs0) elems =
                   Ok (classes', aggs0 ++ new)) ∧
         (∀ n c, dict_get n classes' = Some c →
                 dict_get n classes = Some c ∨ child_classes c = []).
Proof.
  revert classes aggs. induction elems as [|elem elems IH];
    intros classes aggs.
  - intros [= <- <-]. exists []. rewrite app_nil_r. split_and!; try done.
    + intros aggs0. by rewrite app_nil_r.
    + by left.
  - rewrite for_each_cons.
    destruct (read_element (classes, aggs) elem) as [[cl1 ag1]|e] eqn:Hr;
      cbn [bind]; [|done].
    intros Hrest.
    destruct (read_element_inv _ _ _ _ _ Hr) as (new1 & -> & _ & Hany1 & Hc1).
    destruct (IH _ _ Hrest) as (new2 & -> & Hany2 & Hc2).
    exists (new1 ++ new2). rewrite app_assoc. split_and!; [done| |].
    + intros aggs0. rewrite for_each_cons, Hany1. cbn [bind].
      by rewrite Hany2, app_assoc.
    + intros n c Hn. destruct (Hc2 n c Hn) as [Hn1|]; [|by right].
      by apply Hc1.
Qed.

(** The aggregations are those of the [Aggregation] elements, in document
    order. *)
Lemma first_pass_aggregations elems classes aggs classes' aggs' :
  for_each read_element (classes, aggs) elems = Ok (classes', aggs') →
  ∃ new, aggs' = aggs ++ new ∧
         map_result read_aggregation
           (filter (λ e, tag e = "Aggregation") elems) = Ok new.
Proof.
  revert classes aggs. induction elems as [|elem elems IH];
    intros classes aggs.
  - intros [= <- <-]. exists []. by rewrite app_nil_r.
  - rewrite for_each_cons.
    destruct (read_element (classes, aggs) elem) as [[cl1 ag1]|e] eqn:Hr;
      cbn [bind]; [|done].
    intros Hrest.
    destruct (read_element_inv _ _ _ _ _ Hr) as (new1 & -> & Hagg & _ & _).
    destruct (IH _ _ Hrest) as (new2 & -> & Hmap).
    exists (new1 ++ new2). rewrite app_assoc. split; [done|].
    rewrite filter_cons. unfold aggregation_of in Hagg.
    case_decide.
    + simpl. destruct (read_aggregation elem) as [agg|]; simpl in *; [|done].
      injection Hagg as <-. by rewrite Hmap.
    + by injection Hagg as <-.
Qed.

(** *** Second pass *)

Lemma dict_get_resolve classes agg n :
  dict_get n (resolve classes agg) =
  (λ c, if decide (target agg = n) then add_child c (child_ref agg) else c)
    <$> dict_get n classes.
Proof.
  unfold resolve. destruct (dict_get (target agg) classes) as [tc|] eqn:Ht.
  - rewrite dict_get_set. destruct (decide (n = target agg)) as [->|Hn].
    + rewrite Ht.
      change (Some (add_child tc (child_ref agg)) =
              Some (if decide (target agg = target agg)
                    then add_child tc (child_ref agg) else tc)).
      by rewrite decide_True.
    + destruct (dict_get n classes) as [c|]; [|done].
      change (Some c = Some (if decide (target agg = n)
                             then add_child c (child_ref agg) else c)).
      by rewrite decide_False by congruence.
  - destruct (decide (target agg = n)) as [<-|Hn].
    + by rewrite Ht.
    + by destruct (dict_get n classes).
Qed.

Lemma resolve_unresolved classes agg :
  dict_get (target agg) classes = None → resolve classes agg = classes.
Proof. unfold resolve. by intros ->. Qed.

Lemma dict_get_foldl_resolve aggs classes n :
  dict_get n (foldl resolve classes aggs) =
  (λ c, {| name := name c; is_root := is_root c;
           documentation := documentation c;
           attributes := attributes c;
           child_classes :=
             child_classes c ++
             map child_ref (filter (λ a, target a = n) aggs) |})
    <$> dict_get n classes.
Proof.
  revert classes. induction aggs as [|agg aggs IH]; intros classes; simpl.
  - destruct (dict_get n classes) as [[]|]; simpl; [|done].
    by rewrite app_nil_r.
  - rewrite IH, dict_get_resolve, filter_cons.
    destruct (dict_get n classes) as [c|]; simpl; [|done].
    case_decide; [|done]. simpl. by rewrite <- app_assoc.
Qed.

Lemma dict_get_foldl_resolve_None aggs classes n :
  dict_get n (foldl resolve classes aggs) = None ↔ dict_get n classes = None.
Proof.
  rewrite dict_get_foldl_resolve. by destruct (dict_get n classes).
Qed.

Lemma foldl_resolve_skip aggs1 agg aggs2 classes :
  dict_get (target agg) classes = None →
  foldl resolve classes (aggs1 ++ agg :: aggs2) =
  foldl resolve classes (aggs1 ++ aggs2).
Proof.
  intros Hn. rewrite !foldl_app. simpl.
  rewrite resolve_unresolved; [done|].
  by apply dict_get_foldl_resolve_None.
Qed.

(** C8. In a model that [parse] returns, the children of each class are
    the child references of the aggregations that name it as target, one
    per aggregation and in document order; an aggregation whose target
    names no class adds to no class.  Inserting such an aggregation into
    the description raises nothing and leaves the model as it was. *)
Theorem parse_skips_unresolved_target (root : Element) model aggs :
  parse root = Ok (model, aggs) →
  map_result read_aggregation
    (filter (λ e, tag e = "Aggregation") (children root)) = Ok aggs ∧
  (∀ n c, dict_get n model = Some c →
          child_classes c =
            map child_ref (filter (λ a, target a = n) aggs)) ∧
  (∀ before after elem agg,
     children root = before ++ after →
     tag elem = "Aggregation" →
     read_aggregation elem = Ok agg →
     dict_get (target agg) model = None →
     ∃ aggs',
       parse (with_children root (before ++ elem :: after)) =
         Ok (model, aggs') ∧
       filter (λ a, target a ≠ target agg) aggs' =
         filter (λ a, target a ≠ target agg) aggs).
Proof.
  unfold parse.
  destruct (for_each read_element ([], []) (children root))
    as [[classes ags]|e] eqn:Hfirst; simpl; [|done].
  intros [= <- <-].
  destruct (first_pass_inv _ _ _ _ _ Hfirst) as (new & Hnew & _ & Hnokids).
  simpl in Hnew. subst new.
  split_and!.
  - destruct (first_pass_aggregations _ _ _ _ _ Hfirst) as (new & Hn & Hm).
    simpl in Hn. by subst new.
  - intros n c. rewrite dict_get_foldl_resolve.
    destruct (dict_get n classes) as [c0|] eqn:Hc0; simpl; [|done].
    intros [= <-]. simpl.
    destruct (Hnokids n c0 Hc0) as [ ? | -> ]; done.
  - intros before after elem agg Hkids Htag Hread Hnone.
    rewrite Hkids, for_each_app in Hfirst.
    destruct (for_each read_element ([], []) before)
      as [[cl1 ag1]|e] eqn:Hbefore; simpl in Hfirst; [|done].
    destruct (first_pass_inv _ _ _ _ _ Hfirst) as (ag2 & -> & Hany & _).
    exists (ag1 ++ agg :: ag2). simpl.
    rewrite for_each_app, Hbefore. simpl.
    rewrite decide_False by (rewrite Htag; discriminate).
    rewrite decide_True by done. rewrite Hread. simpl.
    rewrite Hany. simpl. rewrite <- app_assoc. simpl.
    apply dict_get_foldl_resolve_None in Hnone.
    split.
    + by rewrite foldl_resolve_skip.
    + rewrite !filter_app, filter_cons. by rewrite decide_False by tauto.
Qed.

End ParserProperties.

(** * Properties of the tree generator *)

Section MapResultFacts.
Context {A B : Type} (f : A → result B).

Lemma map_result_cons (a : A) (l : list A) :
  map_result f (a :: l) = (b ← f a; bs ← map_result f l; Ok (b :: bs)).
Proof. reflexivity. Qed.

Lemma map_result_Ok (P : A → B → Prop) (l : list A) :
  (∀ a, a ∈ l → ∃ b, f a = Ok b ∧ P a b) →
  ∃ bs, map_result f l = Ok bs ∧ Forall2 P l bs.
Proof.
  induction l as [|a l IH]; intros Hl.
  - exists []. by split.
  - destruct (Hl a) as (b & Hb & HP); [by left|].
    destruct IH as (bs & Hbs & HPs); [intros x Hx; apply Hl; by right|].
    exists (b :: bs). rewrite map_result_cons, Hb, Hbs. split; [done|].
    by constructor.
Qed.

Lemma map_result_Ok_inv (l : list A) (bs : list B) :
  map_result f l = Ok bs → ∀ a, a ∈ l → ∃ b, f a = Ok b.
Proof.
  revert bs. induction l as [|a l IH]; intros bs Hm x Hx.
  - by apply elem_of_nil in Hx.
  - rewrite map_result_cons in Hm.
    destruct (f a) as [b|] eqn:Hb; cbn [bind] in Hm; [|done].
    destruct (map_result f l) as [bs'|] eqn:Hbs; cbn [bind] in Hm; [|done].
    apply elem_of_cons in Hx as [->|Hx]; [by exists b|].
    by apply (IH bs').
Qed.

Lemma map_result_Err_inv (l : list A) (e : exn) :
  map_result f l = Err e → ∃ a, a ∈ l ∧ f a = Err e.
Proof.
  induction l as [|a l IH]; intros Hm; [done|].
  rewrite map_result_cons in Hm.
  destruct (f a) as [b|e'] eqn:Hb; cbn [bind] in Hm.
  - destruct (map_result f l) as [bs'|e'] eqn:Hbs; cbn [bind] in Hm; [done|].
    injection Hm as ->. destruct IH as (x & Hx & Hfx); [done|].
    exists x. split; [by right | done].
  - injection Hm as ->. exists a. split; [by left | done].
Qed.
End MapResultFacts.

Section TreeProperties.
Import ConfigXmlGenerator.
Implicit Types (model : Dict ClassModel) (depth : nat) (e : exn).

Lemma build_xml_succ model depth n :
  build_xml model (S depth) n =
  (class_model ← getitem model n;
   subtrees ← map_result (λ r, build_xml model depth (child_name r))
                         (child_classes class_model);
   Ok (new_element n
         (map (λ attr, text_element (attr_name attr) (attr_type attr))
              (attributes class_model) ++ subtrees))).
Proof. reflexivity. Qed.

Lemma getitem_Some {V : Type} (d : Dict V) k v :
  dict_get k d = Some v → getitem d k = Ok v.
Proof. unfold getitem. by intros ->. Qed.

Lemma getitem_None {V : Type} (d : Dict V) k :
  dict_get k d = None → getitem d k = Err (KeyError k).
Proof. unfold getitem. by intros ->. Qed.

(** The only errors of [build_xml]: the recursion limit, and the lookup
    of a name that is no class. *)
Lemma build_xml_error model depth n e :
  build_xml model depth n = Err e →
  e = RecursionError ∨ ∃ k, e = KeyError k ∧ dict_get k model = None.
Proof.
  revert n. induction depth as [|depth IH]; intros n.
  - intros [= <-]. by left.
  - rewrite build_xml_succ.
    destruct (dict_get n model) as [c|] eqn:Hn.
    + rewrite (getitem_Some _ _ _ Hn). cbn [bind].
      destruct (map_result _ (child_classes c)) as [ts|e'] eqn:Hm;
        cbn [bind]; [done|].
      intros [= ->].
      apply map_result_Err_inv in Hm as (r & _ & Hr). by apply IH in Hr.
    + rewrite (getitem_None _ _ Hn). cbn [bind].
      intros [= <-]. right. by exists n.
Qed.

(** A tree is returned only if every class met on the way exists. *)
Lemma build_xml_Ok_reaches model depth n t :
  build_xml model depth n = Ok t →
  ∀ m, reaches model n m → is_Some (dict_get m model).
Proof.
  revert n t. induction depth as [|depth IH]; intros n t; [done|].
  rewrite build_xml_succ.
  destruct (dict_get n model) as [c|] eqn:Hn.
  - rewrite (getitem_Some _ _ _ Hn). cbn [bind].
    destruct (map_result _ (child_classes c)) as [ts|e'] eqn:Hm;
      cbn [bind]; [|done].
    intros _ m Hreach. inversion Hreach as [|? c' r ? Hn' Hr Hrest]; subst.
    + by rewrite Hn.
    + rewrite Hn in Hn'. injection Hn' as <-.
      destruct (map_result_Ok_inv _ _ _ Hm r Hr) as (t' & Ht').
      by apply (IH _ _ Ht').
  - by rewrite (getitem_None _ _ Hn).
Qed.

Lemma acyclic_child model rank n c r :
  acyclic model rank → dict_get n model = Some c → r ∈ child_classes c →
  rank (child_name r) < rank n.
Proof.
  intros Hac Hn Hr. apply dict_get_Some_elem_of in Hn.
  unfold acyclic in Hac. rewrite Forall_forall in Hac.
  specialize (Hac _ Hn). rewrite Forall_forall in Hac. by apply Hac.
Qed.

Lemma closed_child model n c r :
  closed model → dict_get n model = Some c → r ∈ child_classes c →
  is_Some (dict_get (child_name r) model).
Proof.
  intros Hcl Hn Hr. apply dict_get_Some_elem_of in Hn.
  unfold closed in Hcl. rewrite Forall_forall in Hcl.
  specialize (Hcl _ Hn). rewrite Forall_forall in Hcl. by apply Hcl.
Qed.

(** Without a cycle, a depth above the rank is never exhausted. *)
Lemma build_xml_no_recursion_error model rank depth n :
  acyclic model rank → rank n < depth →
  build_xml model depth n ≠ Err RecursionError.
Proof.
  intros Hac. revert n. induction depth as [|depth IH]; intros n Hlt; [lia|].
  rewrite build_xml_succ.
  destruct (dict_get n model) as [c|] eqn:Hn.
  - rewrite (getitem_Some _ _ _ Hn). cbn [bind].
    destruct (map_result _ (child_classes c)) as [ts|e'] eqn:Hm;
      cbn [bind]; [done|].
    intros [= ->].
    apply map_result_Err_inv in Hm as (r & Hr & Hbuild).
    apply (IH (child_name r)); [|done].
    pose proof (acyclic_child _ _ _ _ _ Hac Hn Hr). lia.
  - by rewrite (getitem_None _ _ Hn).
Qed.

(** Without a cycle or a missing class, the tree is built and is the
    expansion of the class. *)
Lemma build_xml_expansion model rank depth n :
  closed model → acyclic model rank →
  is_Some (dict_get n model) → rank n < depth →
  ∃ t, build_xml model depth n = Ok t ∧ expansion model n t.
Proof.
  intros Hcl Hac. revert n.
  induction depth as [|depth IH]; intros n [c Hn] Hlt; [lia|].
  rewrite build_xml_succ, (getitem_Some _ _ _ Hn). cbn [bind].
  destruct (map_result_Ok
              (λ r, build_xml model depth (child_name r))
              (λ r t, expansion model (child_name r) t)
              (child_classes c)) as (ts & Hts & Hexp).
  { intros r Hr. apply IH.
    - by apply (closed_child _ _ _ _ Hcl Hn).
    - pose proof (acyclic_child _ _ _ _ _ Hac Hn Hr). lia. }
  rewrite Hts. cbn [bind]. eexists. split; [done|].
  by apply expansion_node.
Qed.

(** *** The root *)

Lemma find_is_root_None model :
  List.find is_root (dict_values model) = None ↔
  existsb is_root (dict_values model) = false.
Proof.
  induction (dict_values model) as [|c l IH]; simpl; [done|].
  destruct (is_root c); simpl; [done | apply IH].
Qed.

Lemma dict_get_named model n c :
  dict_ok model → (n, c) ∈ model → dict_get n model = Some c.
Proof.
  unfold dict_ok. induction model as [|[k v] model IH]; simpl;
    intros Hnd Hin.
  - by apply elem_of_nil in Hin.
  - apply NoDup_cons in Hnd as [Hk Hnd].
    apply elem_of_cons in Hin as [[= -> ->]|Hin].
    + by rewrite decide_True.
    + rewrite decide_False; [by apply IH|].
      intros ->. apply Hk. unfold dict_keys.
      apply list_elem_of_In, in_map_iff. exists (k, c).
      split; [done | by apply list_elem_of_In].
Qed.

Lemma find_root_lookup model root_class :
  dict_ok model → named model →
  List.find is_root (dict_values model) = Some root_class →
  dict_get (name root_class) model = Some root_class ∧
  is_root root_class = true.
Proof.
  intros Hok Hnamed Hfind. apply find_some in Hfind as [Hin Hroot].
  split; [|done].
  unfold dict_values in Hin. apply in_map_iff in Hin as ([k c] & <- & Hin).
  apply list_elem_of_In in Hin.
  unfold named in Hnamed. rewrite Forall_forall in Hnamed.
  rewrite (Hnamed _ Hin). by apply dict_get_named.
Qed.

End TreeProperties.

(** * The models that [parse] returns *)

Section ParsedModels.
Import ModelParser.
Implicit Types (classes model : Dict ClassModel) (aggs : list Aggregation).

Lemma elem_of_dict_keys_set {V : Type} (d : Dict V) k v x :
  x ∈ dict_keys (dict_set k v d) ↔ x = k ∨ x ∈ dict_keys d.
Proof.
  induction d as [|[k0 v0] d IH]; simpl.
  - rewrite list_elem_of_singleton, elem_of_nil. tauto.
  - destruct (decide (k = k0)) as [->|Hne]; simpl.
    + rewrite elem_of_cons. tauto.
    + rewrite !elem_of_cons, IH. tauto.
Qed.

Lemma dict_ok_set {V : Type} (d : Dict V) k v :
  dict_ok d → dict_ok (dict_set k v d).
Proof.
  unfold dict_ok. induction d as [|[k0 v0] d IH]; simpl; intros Hnd.
  - apply NoDup_singleton.
  - apply NoDup_cons in Hnd as [Hk Hnd].
    destruct (decide (k = k0)) as [->|Hne]; simpl.
    + by apply NoDup_cons.
    + apply NoDup_cons. split; [|by apply IH].
      rewrite elem_of_dict_keys_set. intros [->|Hin]; done.
Qed.

Lemma named_set model k c :
  name c = k → named model → named (dict_set k c model).
Proof.
  intros Hk. unfold named.
  induction model as [|[k0 v0] model IH]; simpl; intros Hn.
  - by repeat constructor.
  - apply Forall_cons in Hn as [H0 Hn].
    destruct (decide (k = k0)) as [->|Hne]; constructor; auto.
Qed.

Lemma named_lookup model n c :
  named model → dict_get n model = Some c → name c = n.
Proof.
  intros Hn Hg. apply dict_get_Some_elem_of in Hg.
  unfold named in Hn. rewrite Forall_forall in Hn. by apply (Hn _ Hg).
Qed.

Lemma read_element_ok classes aggs elem classes' aggs' :
  read_element (classes, aggs) elem = Ok (classes', aggs') →
  dict_ok classes ∧ named classes → dict_ok classes' ∧ named classes'.
Proof.
  unfold read_element. intros Hr [Hok Hn].
  destruct (decide (tag elem = "Class")).
  - destruct (read_class elem) as [cm|]; cbn [bind] in Hr; [|done].
    injection Hr as <- <-. split; [by apply dict_ok_set|by apply named_set].
  - destruct (decide (tag elem = "Aggregation")).
    + destruct (read_aggregation elem); cbn [bind] in Hr; [|done].
      by injection Hr as <- <-.
    + by injection Hr as <- <-.
Qed.

Lemma first_pass_ok elems classes aggs classes' aggs' :
  for_each read_element (classes, aggs) elems = Ok (classes', aggs') →
  dict_ok classes ∧ named classes → dict_ok classes' ∧ named classes'.
Proof.
  revert classes aggs. induction elems as [|elem elems IH];
    intros classes aggs.
  - by intros [= <- <-].
  - rewrite for_each_cons.
    destruct (read_element (classes, aggs) elem) as [[cl1 ag1]|] eqn:Hr;
      cbn [bind]; [|done].
    intros Hrest Hok. apply (IH _ _ Hrest).
    by apply (read_element_ok _ _ _ _ _ Hr).
Qed.

Lemma resolve_ok classes agg :
  dict_ok classes ∧ named classes →
  dict_ok (resolve classes agg) ∧ named (resolve classes agg).
Proof.
  intros [Hok Hn]. unfold resolve.
  destruct (dict_get (target agg) classes) as [tc|] eqn:Ht; [|done].
  split; [by apply dict_ok_set|].
  apply named_set; [|done]. apply (named_lookup _ _ _ Hn Ht).
Qed.

Lemma foldl_resolve_ok aggs classes :
  dict_ok classes ∧ named classes →
  dict_ok (foldl resolve classes aggs) ∧ named (foldl resolve classes aggs).
Proof.
  revert classes. induction aggs as [|agg aggs IH]; intros classes Hok;
    [done|].
  simpl. by apply IH, resolve_ok.
Qed.

(** The model of [parse] holds each class once, under its name. *)
Lemma parse_model_ok root model aggs :
  parse root = Ok (model, aggs) → dict_ok model ∧ named model.
Proof.
  unfold parse.
  destruct (for_each read_element ([], []) (children root))
    as [[classes ags]|] eqn:Hfirst; cbn [bind]; [|done].
  intros [= <- <-]. apply foldl_resolve_ok.
  apply (first_pass_ok _ _ _ _ _ Hfirst).
  split; [apply NoDup_nil_2 | constructor].
Qed.

(** The children of a class of the model: one reference per aggregation
    that names the class as target, in the order of the aggregations. *)
Lemma parse_children root model aggs n c :
  parse root = Ok (model, aggs) →
  dict_get n model = Some c →
  child_classes c = map child_ref (filter (λ a, target a = n) aggs).
Proof.
  unfold parse.
  destruct (for_each read_element ([], []) (children root))
    as [[classes ags]|] eqn:Hfirst; cbn [bind]; [|done].
  intros [= <- <-].
  destruct (first_pass_inv _ _ _ _ _ Hfirst) as (new & _ & _ & Hnokids).
  rewrite dict_get_foldl_resolve.
  destruct (dict_get n classes) as [c0|] eqn:Hc0; simpl; [|done].
  intros [= <-]. simpl.
  destruct (Hnokids n c0 Hc0) as [ ? | -> ]; done.
Qed.

(** *** Errors of [parse] *)

Lemma getitem_error {V : Type} (d : Dict V) k e :
  getitem d k = Err e → key_error e.
Proof.
  unfold getitem. destruct (dict_get k d); [done|].
  intros [= <-]. by exists k.
Qed.

Lemma for_each_error {S A : Type} (body : S → A → result S)
    (P : exn → Prop) (l : list A) (s : S) e :
  (∀ s a e, body s a = Err e → P e) →
  for_each body s l = Err e → P e.
Proof.
  intros Hbody. revert s. induction l as [|a l IH]; intros s; [done|].
  rewrite for_each_cons.
  destruct (body s a) as [s'|e'] eqn:Hb; cbn [bind].
  - apply IH.
  - intros [= <-]. by apply (Hbody _ _ _ Hb).
Qed.

#[local] Ltac bind_cases H :=
  repeat match type of H with
  | bind (getitem ?d ?k) _ = Err _ =>
      let Hg := fresh "Hg" in
      destruct (getitem d k) eqn:Hg; cbn [bind] in H;
      [| injection H as <-; by apply getitem_error in Hg]
  end.

Lemma read_attribute_error attrs attr e :
  read_attribute attrs attr = Err e → key_error e.
Proof.
  unfold read_attribute. case_decide; [|done].
  intros Hr. bind_cases Hr. done.
Qed.

Lemma read_class_error elem e :
  read_class elem = Err e → key_error e.
Proof.
  unfold read_class. intros Hr. bind_cases Hr.
  destruct (for_each read_attribute [] (children elem)) eqn:Hattrs;
    cbn [bind] in Hr; [done|].
  injection Hr as <-.
  apply (for_each_error _ _ _ _ _ read_attribute_error Hattrs).
Qed.

Lemma read_aggregation_error elem e :
  read_aggregation elem = Err e → key_error e.
Proof. unfold read_aggregation. intros Hr. bind_cases Hr. done. Qed.

Lemma read_element_error st elem e :
  read_element st elem = Err e → key_error e.
Proof.
  destruct st as [classes aggs]. unfold read_element.
  case_decide.
  - destruct (read_class elem) eqn:Hc; cbn [bind]; [done|].
    intros [= <-]. by apply read_class_error in Hc.
  - case_decide; [|done].
    destruct (read_aggregation elem) eqn:Ha; cbn [bind]; [done|].
    intros [= <-]. by apply read_aggregation_error in Ha.
Qed.

(** A description that [parse] rejects is rejected with a [KeyError]: a
    required attribute is missing. *)
Lemma parse_error root e : parse root = Err e → key_error e.
Proof.
  unfold parse.
  destruct (for_each read_element ([], []) (children root))
    as [[classes ags]|] eqn:Hfirst; cbn [bind]; [done|].
  intros [= <-].
  apply (for_each_error _ _ _ _ _ read_element_error Hfirst).
Qed.

End ParsedModels.

(** * The generators *)

Section GeneratorTheorems.
Import ModelParser ConfigXmlGenerator.
Implicit Types (model : Dict ClassModel) (depth : nat).

(** C4. With no class flagged as root, [generate] raises the missing-root
    [ValueError] and returns no tree; with a class flagged as root it
    never raises it, and a tree it returns is labelled with a class so
    flagged.  The error differs from every error of [parse], which are
    [KeyError]s. *)
Theorem generate_missing_root model depth :
  (if existsb is_root (dict_values model)
   then generate depth model ≠ Err missing_root
   else generate depth model = Err missing_root) ∧
  (∀ tree, generate depth model = Ok tree →
           ∃ c, c ∈ dict_values model ∧ is_root c = true ∧
                tag tree = name c) ∧
  (∀ root e, parse root = Err e → (∃ k, e = KeyError k) ∧ e ≠ missing_root).
Proof.
  split_and!.
  - unfold generate.
    destruct (existsb is_root (dict_values model)) eqn:Hex.
    + destruct (List.find is_root (dict_values model)) as [rc|] eqn:Hfind.
      * intros Herr. by apply build_xml_error in Herr as [?|(k & ? & _)].
      * apply find_is_root_None in Hfind. congruence.
    + apply find_is_root_None in Hex. by rewrite Hex.
  - intros tree. unfold generate.
    destruct (List.find is_root (dict_values model)) as [rc|] eqn:Hfind;
      [|done].
    apply find_some in Hfind as [Hin Hroot]. intros Hb.
    exists rc. split_and!; [by apply list_elem_of_In | done |].
    destruct depth as [|depth]; [done|].
    rewrite build_xml_succ in Hb.
    destruct (getitem model (name rc)); cbn [bind] in Hb; [|done].
    destruct (map_result _ _); cbn [bind] in Hb; [|done].
    by injection Hb as <-.
  - intros root e Herr. apply parse_error in Herr as [k ->].
    split; [by exists k | done].
Qed.

(** *** The text of the tree *)

Lemma check_qnames_tags tags :
  for_each (λ _ qname,
              if unclosed_namespace qname then Err unpack_error else Ok tt)
           tt tags =
  if forallb (λ qname, negb (unclosed_namespace qname)) tags
  then Ok tt else Err unpack_error.
Proof.
  induction tags as [|qname tags IH]; [done|].
  rewrite for_each_cons. simpl.
  destruct (unclosed_namespace qname); cbn [bind negb andb]; [done|].
  apply IH.
Qed.

(** No text is written for a tree that holds an unclosed namespace. *)
Lemma check_qnames_Ok tree :
  check_qnames tree = Ok tt ↔
  Forall (λ qname, unclosed_namespace qname = false) (element_tags tree).
Proof.
  unfold check_qnames. rewrite check_qnames_tags, Forall_forall.
  destruct (forallb _ _) eqn:Hall.
  - split; [|done]. intros _ qname Hin.
    rewrite forallb_forall in Hall.
    apply negb_true_iff, Hall. by apply list_elem_of_In.
  - split; [done|]. intros Hno. exfalso.
    apply not_true_iff_false in Hall. apply Hall, forallb_forall.
    intros qname Hin. apply negb_true_iff, Hno. by apply list_elem_of_In.
Qed.

(** C5, as the code has it.  In a model without cycle or missing class,
    whose first class flagged as root is [root_class], the tree that
    [generate] builds, as soon as the allowed depth exceeds the rank of the
    root, is the expansion of that class: a node labelled with its name,
    holding its attribute leaves in stored order and then one subtree per
    child reference, in stored order, each the expansion of the child class
    whatever its cardinality.  What [generate] returns is what the
    serializer makes of this tree: its text, when the tree is laid out, no
    tag holds an unclosed namespace and the text is written, and otherwise
    the error of the first of these steps that fails. *)
Theorem generate_xml_serializes_expansion model rank root_class depth :
  dict_ok model → named model →
  closed model → acyclic model rank →
  List.find is_root (dict_values model) = Some root_class →
  rank (name root_class) < depth →
  ∃ tree subtrees,
    build_xml model depth (name root_class) = Ok tree ∧
    expansion model (name root_class) tree ∧
    tree = mkElement (name root_class) [] None
             (map (λ a, mkElement (attr_name a) [] (Some (attr_type a)) [])
                  (attributes root_class) ++ subtrees) ∧
    Forall2 (λ r t, expansion model (child_name r) t)
            (child_classes root_class) subtrees ∧
    ∀ indent write_xml,
      generate_xml indent write_xml depth model =
        (_ ← indent tree; _ ← check_qnames tree; write_xml tree) ∧
      ∀ xml, generate_xml indent write_xml depth model = Ok xml →
             indent tree = Ok tt ∧
             Forall (λ qname, unclosed_namespace qname = false)
                    (element_tags tree) ∧
             write_xml tree = Ok xml.
Proof.
  intros Hok Hnamed Hcl Hac Hfind Hlt.
  destruct (find_root_lookup _ _ Hok Hnamed Hfind) as [Hroot _].
  destruct (build_xml_expansion model rank depth (name root_class))
    as (tree & Hb & Hexp); [done..| |done|]; [by rewrite Hroot|].
  assert (Hgen : ∀ indent write_xml,
            generate_xml indent write_xml depth model =
              (_ ← indent tree; _ ← check_qnames tree; write_xml tree)).
  { intros indent write_xml. unfold generate_xml, generate.
    by rewrite Hfind, Hb. }
  inversion Hexp as [? c subtrees Hc Hsub]; subst.
  rewrite Hroot in Hc. injection Hc as <-.
  eexists; exists subtrees. split_and!; [done..|].
  intros indent write_xml. split; [apply Hgen|].
  intros xml. rewrite Hgen.
  destruct (indent _) as [[]|]; cbn [bind]; [|done].
  destruct (check_qnames _) as [[]|] eqn:Hq; cbn [bind]; [|done].
  intros Hw. split_and!; [done| |done]. by apply check_qnames_Ok.
Qed.

(** Whatever the model, a class that does not exist and is met while
    expanding the root makes [generate] fail, with a [KeyError] or with
    the recursion limit, and not with the missing-root error. *)
Lemma generate_dangling model root_class ghost depth :
  List.find is_root (dict_values model) = Some root_class →
  reaches model (name root_class) ghost →
  dict_get ghost model = None →
  ∃ e, generate depth model = Err e ∧ e ≠ missing_root ∧
       (e = RecursionError ∨ ∃ k, e = KeyError k ∧ dict_get k model = None) ∧
       (∀ rank, acyclic model rank → rank (name root_class) < depth →
                ∃ k, e = KeyError k ∧ dict_get k model = None).
Proof.
  intros Hfind Hreach Hghost. unfold generate. rewrite Hfind.
  destruct (build_xml model depth (name root_class)) as [t|e] eqn:Hb.
  - destruct (build_xml_Ok_reaches _ _ _ _ Hb _ Hreach) as [c Hc].
    congruence.
  - exists e. pose proof (build_xml_error _ _ _ _ Hb) as He.
    split_and!; [done| |done|].
    + by destruct He as [->|(k & -> & _)].
    + intros rank Hac Hlt. destruct He as [->|He]; [|done].
      by apply (build_xml_no_recursion_error _ _ _ _ Hac Hlt) in Hb.
Qed.

(** C10, as the code has it.  An aggregation whose target is a class and
    whose source is none still adds its child reference to the target.
    If the target is met while expanding the root, [generate] then
    returns no tree: it fails with a [KeyError] on a name that is no
    class, or with the recursion limit where a cycle or too deep a chain
    is expanded first, never with the missing-root error; without a cycle
    and with depth to spare, the failure is the [KeyError]. *)
Theorem dangling_child_fails root model aggs agg :
  parse root = Ok (model, aggs) →
  agg ∈ aggs →
  is_Some (dict_get (target agg) model) →
  dict_get (source agg) model = None →
  (∃ c, dict_get (target agg) model = Some c ∧
        child_ref agg ∈ child_classes c ∧
        child_name (child_ref agg) = source agg) ∧
  (∀ root_class depth,
     List.find is_root (dict_values model) = Some root_class →
     reaches model (name root_class) (target agg) →
     ∃ e, generate depth model = Err e ∧ e ≠ missing_root ∧
          (e = RecursionError ∨
           ∃ k, e = KeyError k ∧ dict_get k model = None) ∧
          (∀ rank, acyclic model rank → rank (name root_class) < depth →
                   ∃ k, e = KeyError k ∧ dict_get k model = None)).
Proof.
  intros Hparse Hin [c Hc] Hsrc.
  assert (Hchild : child_ref agg ∈ child_classes c).
  { rewrite (parse_children _ _ _ _ _ Hparse Hc).
    apply list_elem_of_In, in_map, list_elem_of_In.
    by apply list_elem_of_filter. }
  split; [by exists c|].
  intros root_class depth Hfind Hreach.
  apply (generate_dangling model root_class (source agg)); [done| |done].
  clear Hfind. induction Hreach as [n | n c' r m Hn Hr _ IH].
  - eapply reaches_child; [exact Hc | exact Hchild | apply reaches_here].
  - eapply reaches_child; [exact Hn | exact Hr | by apply IH].
Qed.

End GeneratorTheorems.

Section MetadataTheorems.
Import MetaJsonGenerator.
Implicit Types (model : Dict ClassModel).

Lemma class_entry_fields n c :
  let entry := class_entry n c in
  dict_get "class" entry = Some (JStr n) ∧
  dict_get "documentation" entry = Some (JStr (documentation c)) ∧
  dict_get "isRoot" entry = Some (JBool (is_root c)) ∧
  dict_get "parameters" entry = Some (JList (parameters_of c)) ∧
  dict_get "min" entry = (λ r, JStr (child_min r)) <$> head (child_classes c) ∧
  dict_get "max" entry = (λ r, JStr (child_max r)) <$> head (child_classes c).
Proof. unfold class_entry. by destruct (child_classes c). Qed.

(** C6. [generate] returns one descriptor per entry of the model, in the
    order of the model and whether or not the class is reachable from the
    root.  The descriptor carries the class name, and its parameters are
    one [{name, type}] per attribute followed by one
    [{name: child, type: "class"}] per child reference, each group in
    stored order: as many as attributes and child references together. *)
Theorem generate_one_descriptor_per_class model :
  length (generate model) = length model ∧
  Forall2 (λ kv entry,
             dict_get "class" entry = Some (JStr kv.1) ∧
             ∃ parameters,
               dict_get "parameters" entry = Some (JList parameters) ∧
               parameters =
                 map (λ a, JDict [("name", JStr (attr_name a));
                                  ("type", JStr (attr_type a))])
                     (attributes kv.2) ++
                 map (λ r, JDict [("name", JStr (child_name r));
                                  ("type", JStr "class")])
                     (child_classes kv.2) ∧
               length parameters =
                 length (attributes kv.2) + length (child_classes kv.2))
          model (generate model).
Proof.
  unfold generate. split; [by rewrite length_map|].
  induction model as [|[n c] model IH]; simpl; constructor; [|done].
  destruct (class_entry_fields n c) as (Hclass & _ & _ & Hparams & _).
  split; [done|]. exists (parameters_of c). split_and!; [done..|].
  unfold parameters_of. by rewrite length_app, !length_map.
Qed.

(** C7. A descriptor has a [min] and a [max] exactly when its class has a
    child reference, and they are then the minimum and maximum of the
    first child reference, whatever the later ones hold. *)
Theorem generate_min_max_of_first_child model :
  Forall2 (λ kv entry,
             (is_Some (dict_get "min" entry) ↔ child_classes kv.2 ≠ []) ∧
             (is_Some (dict_get "max" entry) ↔ child_classes kv.2 ≠ []) ∧
             ∀ r others, child_classes kv.2 = r :: others →
               dict_get "min" entry = Some (JStr (child_min r)) ∧
               dict_get "max" entry = Some (JStr (child_max r)))
          model (generate model).
Proof.
  unfold generate.
  induction model as [|[n c] model IH]; simpl; constructor; [|done].
  destruct (class_entry_fields n c) as (_ & _ & _ & _ & Hmin & Hmax).
  simpl in *. rewrite Hmin, Hmax.
  destruct (child_classes c) as [|r others]; simpl.
  - split_and!; [split; [by intros [? ?] | done]..|done].
  - split_and!; [split; [done | by eexists]..|].
    by intros ? ? [= <- <-].
Qed.

End MetadataTheorems.

(** * The scenarios of the spec and other runs *)

Section Scenarios.
Import ModelParser.

(** The robot: one [Engine] subtree and one [Wheel] subtree under
    [Robot], whatever the multiplicities. *)
Example robot_parse :
  parse robot_xml = Ok (robot_model, robot_aggregations).
Proof. reflexivity. Qed.

Example robot_tree :
  ConfigXmlGenerator.generate 1000 robot_model =
  Ok (mkElement "Robot" [] None
        [mkElement "serial" [] (Some "string") [];
         mkElement "Engine" [] None [mkElement "power" [] (Some "int") []];
         mkElement "Wheel" [] None
           [mkElement "radius" [] (Some "float") []]]).
Proof. by vm_compute. Qed.

Example robot_metadata :
  MetaJsonGenerator.generate robot_model =
  [[("class", JStr "Robot"); ("documentation", JStr "A robot");
    ("isRoot", JBool true);
    ("parameters",
     JList [JDict [("name", JStr "serial"); ("type", JStr "string")];
            JDict [("name", JStr "Engine"); ("type", JStr "class")];
            JDict [("name", JStr "Wheel"); ("type", JStr "class")]]);
    ("min", JStr "1"); ("max", JStr "1")];
   [("class", JStr "Engine"); ("documentation", JStr "");
    ("isRoot", JBool false);
    ("parameters",
     JList [JDict [("name", JStr "power"); ("type", JStr "int")]])];
   [("class", JStr "Wheel"); ("documentation", JStr "");
    ("isRoot", JBool false);
    ("parameters",
     JList [JDict [("name", JStr "radius"); ("type", JStr "float")]])]].
Proof. reflexivity. Qed.

Lemma robot_model_well_formed :
  dict_ok robot_model ∧ named robot_model ∧ closed robot_model ∧
  acyclic robot_model (root_rank "Robot").
Proof.
  split_and!; apply (bool_decide_unpack _); by vm_compute.
Defined.

Lemma generate_xml_serializes_expansion_witness :
  ∃ tree subtrees,
    ConfigXmlGenerator.build_xml robot_model 1000 "Robot" = Ok tree ∧
    expansion robot_model "Robot" tree ∧
    tree = mkElement "Robot" [] None
             ([mkElement "serial" [] (Some "string") []] ++ subtrees) ∧
    Forall2 (λ r t, expansion robot_model (child_name r) t)
            [("Engine", "1", "1"); ("Wheel", "0", "4")] subtrees ∧
    ∀ indent write_xml,
      generate_xml indent write_xml 1000 robot_model =
        (_ ← indent tree; _ ← check_qnames tree; write_xml tree) ∧
      ∀ xml, generate_xml indent write_xml 1000 robot_model = Ok xml →
             indent tree = Ok tt ∧
             Forall (λ qname, unclosed_namespace qname = false)
                    (element_tags tree) ∧
             write_xml tree = Ok xml.
Proof.
  destruct robot_model_well_formed as (Hok & Hnamed & Hclosed & Hacyclic).
  apply (generate_xml_serializes_expansion robot_model (root_rank "Robot")
           robot_class 1000 Hok Hnamed Hclosed Hacyclic eq_refl).
  vm_compute. lia.
Defined.

(** The robot's tree holds no unclosed namespace: its text is whatever the
    serializer writes for it. *)
Example robot_tree_names :
  check_qnames
    (mkElement "Robot" [] None
       [mkElement "serial" [] (Some "string") [];
        mkElement "Engine" [] None [mkElement "power" [] (Some "int") []];
        mkElement "Wheel" [] None [mkElement "radius" [] (Some "float") []]]) =
  Ok tt.
Proof. reflexivity. Qed.

(** A root class named ["{x"]: the description is parsed, the model is
    without cycle or missing class and has a root, the tree is built, and
    [generate] returns no text, whatever the serializer does besides: where
    the tree is laid out, the names of its tags are computed next and the
    unclosed namespace raises the [ValueError] of the unpacking. *)
Lemma brace_name_never_serialized :
  parse brace_xml = Ok (brace_model, []) ∧
  dict_ok brace_model ∧ named brace_model ∧ closed brace_model ∧
  acyclic brace_model (λ _, 0) ∧
  List.find is_root (dict_values brace_model) = Some brace_class ∧
  ConfigXmlGenerator.build_xml brace_model 1000 "{x" =
    Ok (mkElement "{x" [] None []) ∧
  expansion brace_model "{x" (mkElement "{x" [] None []) ∧
  (¬ ∃ indent write_xml xml,
       generate_xml indent write_xml 1000 brace_model = Ok xml) ∧
  (∀ indent write_xml,
     generate_xml indent write_xml 1000 brace_model =
       (_ ← indent (mkElement "{x" [] None []); Err unpack_error)).
Proof.
  split_and!; try (intros; reflexivity);
    try (apply (bool_decide_unpack _); by vm_compute).
  - by apply (expansion_node brace_model "{x" brace_class []).
  - intros (indent & write_xml & xml & Hgen).
    unfold generate_xml in Hgen.
    change (ConfigXmlGenerator.generate 1000 brace_model)
      with (Ok (mkElement "{x" [] None []) : result Element) in Hgen.
    cbn [bind] in Hgen. by destruct (indent _).
Qed.

Lemma parse_skips_unresolved_target_witness :
  parse robot_xml = Ok (robot_model, robot_aggregations) ∧
  ∃ aggs',
    parse (with_children robot_xml
             (take 3 (children robot_xml) ++
              stray_xml :: drop 3 (children robot_xml))) =
    Ok (robot_model, aggs').
Proof.
  split; [reflexivity|].
  destruct (parse_skips_unresolved_target robot_xml robot_model
              robot_aggregations eq_refl) as (_ & _ & Hskip).
  destruct (Hskip (take 3 (children robot_xml)) (drop 3 (children robot_xml))
              stray_xml stray_aggregation eq_refl eq_refl eq_refl eq_refl)
    as (aggs' & Hparse & _).
  by exists aggs'.
Defined.

Lemma dangling_child_fails_witness :
  parse ghost_xml = Ok (ghost_model, [ghost_aggregation]) ∧
  ∃ k, ConfigXmlGenerator.generate 1000 ghost_model = Err (KeyError k) ∧
       dict_get k ghost_model = None.
Proof.
  split; [reflexivity|].
  destruct (dangling_child_fails ghost_xml ghost_model [ghost_aggregation]
              ghost_aggregation eq_refl) as (_ & Hfail).
  - by left.
  - by eexists.
  - reflexivity.
  - destruct (Hfail ghost_root 1000 eq_refl (reaches_here _ _))
      as (e & He & _ & _ & Hkey).
    destruct (Hkey (root_rank "Root")) as (k & -> & Hk).
    + apply (bool_decide_unpack _). by vm_compute.
    + vm_compute. lia.
    + by exists k.
Defined.

(** *** A cycle met before the missing class *)

Lemma cyclic_build_A depth :
  ConfigXmlGenerator.build_xml cyclic_model depth "A" = Err RecursionError.
Proof.
  induction depth as [|depth IH]; [done|].
  rewrite build_xml_succ. change (getitem cyclic_model "A") with
    (Ok {| name := "A"; is_root := false; documentation := "";
           attributes := []; child_classes := [("A", "1", "1")] |}).
  cbn [bind child_classes]. rewrite map_result_cons.
  change (child_name ("A", "1", "1")) with "A". by rewrite IH.
Qed.

Lemma cyclic_generate depth :
  ConfigXmlGenerator.generate depth cyclic_model = Err RecursionError.
Proof.
  change (ConfigXmlGenerator.generate depth cyclic_model)
    with (ConfigXmlGenerator.build_xml cyclic_model depth "Root").
  destruct depth as [|depth]; [done|].
  rewrite build_xml_succ. change (getitem cyclic_model "Root") with
    (Ok cyclic_root).
  cbn [bind]. change (child_classes cyclic_root)
    with [("A", "1", "1"); ("Ghost", "1", "1")].
  rewrite map_result_cons.
  change (child_name ("A", "1", "1")) with "A".
  by rewrite cyclic_build_A.
Qed.

(** C10 fails as stated.  The description [cyclic_xml] parses to a model
    whose root holds class [A], which holds itself, and then [Ghost], the
    source of an aggregation and no class.  The dangling reference is
    reachable from the root, and [generate] fails with the recursion limit
    at every depth, never with a [KeyError]: the cycle is expanded first. *)
Lemma dangling_child_recursion_error :
  parse cyclic_xml =
    Ok (cyclic_model,
        [{| source := "A"; target := "Root";
            source_multiplicity := "1"; target_multiplicity := "1" |};
         ghost_aggregation;
         {| source := "A"; target := "A";
            source_multiplicity := "1"; target_multiplicity := "1" |}]) ∧
  List.find is_root (dict_values cyclic_model) = Some cyclic_root ∧
  dict_get "Root" cyclic_model = Some cyclic_root ∧
  child_ref ghost_aggregation ∈ child_classes cyclic_root ∧
  dict_get (child_name (child_ref ghost_aggregation)) cyclic_model = None ∧
  reaches cyclic_model "Root" "Ghost" ∧
  ConfigXmlGenerator.generate 1000 cyclic_model = Err RecursionError ∧
  (∀ depth k,
     ConfigXmlGenerator.generate depth cyclic_model ≠ Err (KeyError k)).
Proof.
  split_and!; try reflexivity.
  - apply (bool_decide_unpack _). by vm_compute.
  - apply (reaches_child cyclic_model "Root" cyclic_root
             ("Ghost", "1", "1") "Ghost"); [reflexivity| |apply reaches_here].
    apply (bool_decide_unpack _). by vm_compute.
  - intros depth k. by rewrite cyclic_generate.
Qed.

End Scenarios.

Import ConfigComparator.
(** * Properties of the differ and patcher *)

Section ComparatorProperties.
Import ConfigComparator.
Context {V : Type} `{PyEq V}.
Implicit Types (config patched : gmap string V) (ks : list string).
Implicit Types (d : Delta V) (k : string).

(** *** The class of a key *)

#[local] Ltac class_cases config patched k :=
  unfold classify;
  let a := fresh "a" in
  let b := fresh "b" in
  let En := fresh "En" in
  destruct (config !! k) as [a|], (patched !! k) as [b|];
  try destruct (py_ne a b) eqn:En;
  (split;
   [ intros ?; simplify_eq; repeat split; eauto
   | intros ?; destruct_and?;
     repeat match goal with
            | Hs : is_Some None |- _ => by destruct Hs
            | Hx : ∃ _, _ |- _ => destruct Hx
            end;
     destruct_and?; simplify_eq; try done; congruence ]).

Lemma classify_Added config patched k :
  classify config patched k = Some Added ↔
  config !! k = None ∧ is_Some (patched !! k).
Proof. class_cases config patched k. Qed.

Lemma classify_Deleted config patched k :
  classify config patched k = Some Deleted ↔
  is_Some (config !! k) ∧ patched !! k = None.
Proof. class_cases config patched k. Qed.

Lemma classify_Updated config patched k :
  classify config patched k = Some Updated ↔
  ∃ a b, config !! k = Some a ∧ patched !! k = Some b ∧ py_ne a b = true.
Proof. class_cases config patched k. Qed.

Lemma classify_Unchanged config patched k :
  classify config patched k = Some Unchanged ↔
  ∃ a b, config !! k = Some a ∧ patched !! k = Some b ∧ py_ne a b = false.
Proof. class_cases config patched k. Qed.
Lemma classify_None config patched k :
  classify config patched k = None ↔
  config !! k = None ∧ patched !! k = None.
Proof. class_cases config patched k. Qed.

(** *** The three buckets as filters of the visiting order *)

#[local] Ltac step_cases config patched k :=
  unfold compare_step; rewrite filter_cons, filter_nil; unfold classify;
  let a := fresh "a" in
  let b := fresh "b" in
  destruct (config !! k) as [a|], (patched !! k) as [b|]; simpl;
  try destruct (py_ne a b); simpl; try case_decide; simplify_eq;
  rewrite ?map_app, ?app_nil_r; done.

Lemma compare_step_additions config patched d k :
  map add_key (additions (compare_step config patched d k)) =
  map add_key (additions d) ++
  filter (λ k, classify config patched k = Some Added) [k].
Proof. step_cases config patched k. Qed.

Lemma compare_step_deletions config patched d k :
  deletions (compare_step config patched d k) =
  deletions d ++ filter (λ k, classify config patched k = Some Deleted) [k].
Proof. step_cases config patched k. Qed.

Lemma compare_step_updates config patched d k :
  map upd_key (updates (compare_step config patched d k)) =
  map upd_key (updates d) ++
  filter (λ k, classify config patched k = Some Updated) [k].
Proof. step_cases config patched k. Qed.

Lemma foldl_compare_keys config patched ks d :
  let d' := foldl (compare_step config patched) d ks in
  map add_key (additions d') =
    map add_key (additions d) ++
    filter (λ k, classify config patched k = Some Added) ks ∧
  deletions d' =
    deletions d ++
    filter (λ k, classify config patched k = Some Deleted) ks ∧
  map upd_key (updates d') =
    map upd_key (updates d) ++
    filter (λ k, classify config patched k = Some Updated) ks.
Proof.
  revert d. induction ks as [|k ks IH]; intros d; simpl.
  - by rewrite !app_nil_r.
  - destruct (IH (compare_step config patched d k)) as (Ha & Hd & Hu).
    rewrite Ha, Hd, Hu.
    rewrite compare_step_additions, compare_step_deletions,
      compare_step_updates.
    rewrite <- !app_assoc.
    change (k :: ks) with ([k] ++ ks). by rewrite !filter_app.
Qed.

Lemma compare_additions_keys ks config patched :
  map add_key (additions (compare ks config patched)) =
  filter (λ k, classify config patched k = Some Added) ks.
Proof. apply (foldl_compare_keys config patched ks empty_delta). Qed.

Lemma compare_deletions_keys ks config patched :
  deletions (compare ks config patched) =
  filter (λ k, classify config patched k = Some Deleted) ks.
Proof. apply (foldl_compare_keys config patched ks empty_delta). Qed.

Lemma compare_updates_keys ks config patched :
  map upd_key (updates (compare ks config patched)) =
  filter (λ k, classify config patched k = Some Updated) ks.
Proof. apply (foldl_compare_keys config patched ks empty_delta). Qed.

(** *** What each entry records *)

Lemma foldl_compare_entries config patched ks d :
  Forall (addition_ok config patched) (additions d) →
  Forall (update_ok config patched) (updates d) →
  let d' := foldl (compare_step config patched) d ks in
  Forall (addition_ok config patched) (additions d') ∧
  Forall (update_ok config patched) (updates d').
Proof.
  revert d. induction ks as [|k ks IH]; intros d Ha Hu; simpl; [done|].
  apply IH; unfold compare_step;
    destruct (config !! k) as [a|] eqn:Ec, (patched !! k) as [b|] eqn:Ep;
    simpl; try destruct (py_ne a b) eqn:En; simpl; try done.
  - apply Forall_app; split; [done|]. by repeat constructor.
  - apply Forall_app; split; [done|]. by repeat constructor.
Qed.

Lemma compare_entries ks config patched :
  Forall (addition_ok config patched) (additions (compare ks config patched)) ∧
  Forall (update_ok config patched) (updates (compare ks config patched)).
Proof. by apply foldl_compare_entries. Qed.

(** *** Lookups after the three passes of [apply_delta] *)

Lemma lookup_apply_deletion (m : gmap string V) key k :
  apply_deletion m key !! k = if decide (k = key) then None else m !! k.
Proof.
  unfold apply_deletion. destruct (decide (is_Some (m !! key))) as [Hs|Hn].
  - case_decide; subst; [apply lookup_delete_eq | by apply lookup_delete_ne].
  - case_decide; subst; [|done]. by apply eq_None_not_Some.
Qed.

Lemma lookup_foldl_deletion (l : list string) (m : gmap string V) k :
  foldl apply_deletion m l !! k = if decide (k ∈ l) then None else m !! k.
Proof.
  revert m. induction l as [|key l IH]; intros m; cbn [foldl].
  - case_decide as Hin; [by apply elem_of_nil in Hin | done].
  - rewrite IH, lookup_apply_deletion.
    repeat case_decide; try done; exfalso;
      match goal with
      | Hn : _ ∉ _ :: _ |- _ => apply Hn; rewrite elem_of_cons; tauto
      | Hi : _ ∈ _ :: _ |- _ => apply elem_of_cons in Hi; tauto
      end.
Qed.

Section FoldInsert.
Context {A : Type} (key : A → string) (val : A → V).

Lemma lookup_foldl_insert_notin (l : list A) (m : gmap string V) k :
  k ∉ map key l →
  foldl (λ m a, <[key a := val a]> m) m l !! k = m !! k.
Proof.
  revert m. induction l as [|a l IH]; intros m Hk; simpl; [done|].
  simpl in Hk. apply not_elem_of_cons in Hk as [Hne Hk].
  rewrite IH by done. by rewrite lookup_insert_ne.
Qed.

Lemma lookup_foldl_insert_in (l : list A) (m : gmap string V) a :
  NoDup (map key l) → a ∈ l →
  foldl (λ m a, <[key a := val a]> m) m l !! key a = Some (val a).
Proof.
  revert m. induction l as [|a0 l IH]; intros m Hnd Hin; simpl.
  - by apply elem_of_nil in Hin.
  - simpl in Hnd. apply NoDup_cons in Hnd as [Hfresh Hnd].
    apply elem_of_cons in Hin as [->|Hin]; [|by apply IH].
    rewrite lookup_foldl_insert_notin by done. apply lookup_insert_eq.
Qed.
End FoldInsert.

Lemma elem_of_map_key {A : Type} (key : A → string) (l : list A) k :
  k ∈ map key l ↔ ∃ a, a ∈ l ∧ key a = k.
Proof.
  rewrite list_elem_of_In, in_map_iff.
  split; intros (a & H1 & H2); exists a.
  - by rewrite list_elem_of_In.
  - by rewrite <- list_elem_of_In.
Qed.

Lemma iterates_elem_of config patched ks k :
  iterates (all_keys config patched) ks →
  k ∈ ks ↔ is_Some (config !! k) ∨ is_Some (patched !! k).
Proof.
  intros [_ Hks]. rewrite <- (elem_of_list_to_set (C := gset string)), Hks.
  unfold all_keys. by rewrite elem_of_union, !elem_of_dom.
Qed.

(** After [apply_delta] on the delta of [compare], every key reads as in
    [patched], except that a key whose two values compare equal keeps the
    value it had in [config]. *)
Lemma apply_compare_lookup config patched ks k :
  iterates (all_keys config patched) ks →
  apply_delta config (compare ks config patched) !! k =
  match config !! k, patched !! k with
  | _, None => None
  | None, Some b => Some b
  | Some a, Some b => if py_ne a b then Some b else Some a
  end.
Proof.
  intros Hks. pose proof (iterates_elem_of _ _ _ k Hks) as Hk.
  destruct Hks as [Hnd _].
  destruct (compare_entries ks config patched) as [Hadd Hupd].
  rewrite Forall_forall in Hadd. rewrite Forall_forall in Hupd.
  pose proof (compare_additions_keys ks config patched) as Ea.
  pose proof (compare_deletions_keys ks config patched) as Ed.
  pose proof (compare_updates_keys ks config patched) as Eu.
  assert (Hnda : NoDup (map add_key (additions (compare ks config patched))))
    by (rewrite Ea; by apply NoDup_filter).
  assert (Hndu : NoDup (map upd_key (updates (compare ks config patched))))
    by (rewrite Eu; by apply NoDup_filter).
  assert (Hina : k ∈ map add_key (additions (compare ks config patched)) ↔
                 k ∈ ks ∧ classify config patched k = Some Added)
    by (rewrite Ea, list_elem_of_filter; tauto).
  assert (Hind : k ∈ deletions (compare ks config patched) ↔
                 k ∈ ks ∧ classify config patched k = Some Deleted)
    by (rewrite Ed, list_elem_of_filter; tauto).
  assert (Hinu : k ∈ map upd_key (updates (compare ks config patched)) ↔
                 k ∈ ks ∧ classify config patched k = Some Updated)
    by (rewrite Eu, list_elem_of_filter; tauto).
  unfold apply_delta.
  destruct (decide (k ∈ map add_key (additions (compare ks config patched))))
    as [Ha|Ha].
  { apply elem_of_map_key in Ha as (a & Hain & <-).
    unfold apply_addition. rewrite lookup_foldl_insert_in by done.
    destruct (Hadd a Hain) as [-> ->]. done. }
  unfold apply_addition at 1. rewrite lookup_foldl_insert_notin by done.
  destruct (decide (k ∈ map upd_key (updates (compare ks config patched))))
    as [Hu|Hu].
  { apply elem_of_map_key in Hu as (u & Huin & <-).
    unfold apply_update. rewrite lookup_foldl_insert_in by done.
    destruct (Hupd u Huin) as (-> & -> & ->). done. }
  unfold apply_update at 1. rewrite lookup_foldl_insert_notin by done.
  rewrite lookup_foldl_deletion.
  rewrite Hina in Ha. rewrite Hinu in Hu.
  assert (Hnot : ∀ c, (c = Added ∨ c = Updated) →
                      classify config patched k ≠ Some c).
  { intros c [->| ->] Hc; [apply Ha | apply Hu]; (split; [|done]);
      apply Hk; [apply classify_Added in Hc as [_ ?]; by right|].
    apply classify_Updated in Hc as (a & b & -> & _). left. by eexists. }
  destruct (decide (k ∈ deletions (compare ks config patched))) as [Hd|Hd].
  - apply Hind in Hd as [_ Hd]. apply classify_Deleted in Hd as [[a ->] ->].
    done.
  - assert (Hnd' : classify config patched k ≠ Some Deleted).
    { intros Hc. apply Hd, Hind. split; [|done].
      apply Hk. apply classify_Deleted in Hc as [? _]. by left. }
    unfold classify in Hnot, Hnd'.
    destruct (config !! k) as [a|], (patched !! k) as [b|];
      try destruct (py_ne a b); try done.
    + by destruct (Hnot Updated (or_intror eq_refl)).
    + by destruct (Hnot Added (or_introl eq_refl)).
Qed.

(** Key by key: the patched result holds the value of [patched], or the
    value of [config] where [compare] found the two equal. *)
Lemma apply_compare_value config patched ks k :
  iterates (all_keys config patched) ks →
  let result := apply_delta config (compare ks config patched) in
  result !! k = patched !! k ∨
  ∃ a b, config !! k = Some a ∧ patched !! k = Some b ∧
         py_eq a b = true ∧ result !! k = Some a.
Proof.
  intros Hks result. unfold result.
  rewrite (apply_compare_lookup _ _ _ k Hks). unfold py_ne.
  destruct (config !! k) as [a|], (patched !! k) as [b|]; try (by left).
  destruct (py_eq a b) eqn:Eab; simpl; [right | by left].
  by exists a, b.
Qed.

(** C1. Round trip: applying the delta of [compare config patched] to
    [config] gives a mapping that is [==] to [patched], whatever order the
    set of keys was visited in.  The two have the same keys, and each key
    holds the very value of [patched], or the value of [config] where
    [compare] found the two equal. *)
Theorem apply_delta_compare_round_trip config patched ks :
  iterates (all_keys config patched) ks →
  let result := apply_delta config (compare ks config patched) in
  dict_eq result patched = true ∧
  dom result = dom patched ∧
  ∀ k, result !! k = patched !! k ∨
       ∃ a b, config !! k = Some a ∧ patched !! k = Some b ∧
              py_eq a b = true ∧ result !! k = Some a.
Proof.
  intros Hks result.
  pose proof (λ k, apply_compare_value config patched ks k Hks) as Hlook.
  fold result in Hlook.
  assert (Hdom : dom result = dom patched).
  { apply set_eq. intros k. rewrite !elem_of_dom.
    destruct (Hlook k) as [->|(a & b & _ & -> & _ & ->)]; [done|].
    split; eauto. }
  split; [|done].
  unfold dict_eq. apply andb_true_iff. split.
  - apply bool_decide_eq_true_2. by rewrite <- !size_dom, Hdom.
  - apply forallb_forall. intros [k v] Hin.
    apply list_elem_of_In, elem_of_map_to_list in Hin. simpl.
    destruct (Hlook k) as [Hk|(a & b & _ & Hp & Hab & Hr)].
    + rewrite <- Hk, Hin. apply py_eq_refl.
    + rewrite Hp. rewrite Hin in Hr. by simplify_eq.
Qed.

(** Where [==] on values is plain equality, the round trip gives back
    [patched] itself. *)
Corollary apply_delta_compare_exact config patched ks :
  (∀ a b : V, py_eq a b = true → a = b) →
  iterates (all_keys config patched) ks →
  apply_delta config (compare ks config patched) = patched.
Proof.
  intros Hexact Hks. apply map_eq. intros k.
  destruct (apply_compare_value config patched ks k Hks)
    as [Hk|(a & b & _ & Hp & Hab & Hr)]; [done|].
  rewrite Hr, Hp. f_equal. by apply Hexact.
Qed.

(** C2. Every key of either mapping falls in exactly one of the four
    classes: listed once under additions (only in [patched], with its
    value there), once under deletions (only in [config]), once under
    updates (in both, values differing, with both values), or listed
    nowhere (in both, values equal).  No key is listed twice, in one
    bucket or across buckets, and no key outside the union is listed. *)
Theorem compare_classifies_each_key config patched ks :
  iterates (all_keys config patched) ks →
  let d := compare ks config patched in
  (∀ k, k ∈ addition_keys d ↔
        config !! k = None ∧ is_Some (patched !! k)) ∧
  (∀ k, k ∈ deletions d ↔
        is_Some (config !! k) ∧ patched !! k = None) ∧
  (∀ k, k ∈ update_keys d ↔
        ∃ a b, config !! k = Some a ∧ patched !! k = Some b ∧
               py_ne a b = true) ∧
  (∀ k, k ∈ all_keys config patched →
        k ∉ addition_keys d ++ deletions d ++ update_keys d ↔
        ∃ a b, config !! k = Some a ∧ patched !! k = Some b ∧
               py_ne a b = false) ∧
  NoDup (addition_keys d ++ deletions d ++ update_keys d) ∧
  (∀ k, k ∈ addition_keys d ++ deletions d ++ update_keys d →
        k ∈ all_keys config patched) ∧
  (∀ a, a ∈ additions d → patched !! add_key a = Some (add_value a)) ∧
  (∀ u, u ∈ updates d → config !! upd_key u = Some (upd_from u) ∧
                        patched !! upd_key u = Some (upd_to u)).
Proof.
  intros Hks d.
  pose proof (λ k, iterates_elem_of _ _ _ k Hks) as Hk.
  assert (Hall : ∀ k, k ∈ all_keys config patched ↔ k ∈ ks).
  { intros k. rewrite Hk. unfold all_keys.
    by rewrite elem_of_union, !elem_of_dom. }
  destruct Hks as [Hnd _].
  assert (Hca : ∀ k, k ∈ addition_keys d ↔
                     k ∈ ks ∧ classify config patched k = Some Added).
  { intros k. unfold addition_keys, d.
    rewrite compare_additions_keys, list_elem_of_filter. tauto. }
  assert (Hcd : ∀ k, k ∈ deletions d ↔
                     k ∈ ks ∧ classify config patched k = Some Deleted).
  { intros k. unfold d.
    rewrite compare_deletions_keys, list_elem_of_filter. tauto. }
  assert (Hcu : ∀ k, k ∈ update_keys d ↔
                     k ∈ ks ∧ classify config patched k = Some Updated).
  { intros k. unfold update_keys, d.
    rewrite compare_updates_keys, list_elem_of_filter. tauto. }
  destruct (compare_entries ks config patched) as [Hadd Hupd].
  rewrite Forall_forall in Hadd. rewrite Forall_forall in Hupd.
  split_and!.
  - intros k. rewrite Hca, classify_Added, Hk. tauto.
  - intros k. rewrite Hcd, classify_Deleted, Hk. tauto.
  - intros k. rewrite Hcu, classify_Updated, Hk.
    split; [tauto|]. intros Hx. split; [|done].
    destruct Hx as (a & b & -> & _). left. by eexists.
  - intros k Hin. apply Hall in Hin.
    rewrite !elem_of_app, Hca, Hcd, Hcu, <- classify_Unchanged.
    destruct (classify config patched k) as [[]|] eqn:Ec;
      try (split; [intros Hn; exfalso; apply Hn; tauto | done]).
    + split; [done|]. intros _ [[_ ?]|[[_ ?]|[_ ?]]]; done.
    + apply classify_None in Ec as [Ec1 Ec2].
      apply Hk in Hin. rewrite Ec1, Ec2 in Hin.
      by destruct Hin as [[? ?]|[? ?]].
  - apply NoDup_app. split_and!.
    + unfold addition_keys, d. rewrite compare_additions_keys.
      by apply NoDup_filter.
    + intros k. rewrite elem_of_app, Hca, Hcd, Hcu.
      intros [_ Ea] [[_ Eb]|[_ Eb]]; congruence.
    + apply NoDup_app. split_and!.
      * unfold d. rewrite compare_deletions_keys. by apply NoDup_filter.
      * intros k. rewrite Hcd, Hcu. intros [_ Ea] [_ Eb]. congruence.
      * unfold update_keys, d. rewrite compare_updates_keys.
        by apply NoDup_filter.
  - intros k. rewrite !elem_of_app, Hca, Hcd, Hcu, Hall. tauto.
  - intros a Hin. by destruct (Hadd a Hin).
  - intros u Hin. by destruct (Hupd u Hin) as (? & ? & _).
Qed.

Lemma StronglySorted_filter {A : Type} (R : relation A) (P : A → Prop)
    `{∀ x, Decision (P x)} (l : list A) :
  StronglySorted R l → StronglySorted R (filter P l).
Proof.
  induction 1 as [|x l Hl IH Hx]; [constructor|].
  rewrite filter_cons. case_decide; [|done].
  constructor; [done|].
  rewrite Forall_forall in *. intros y Hy.
  apply list_elem_of_filter in Hy as [_ Hy]. by apply Hx.
Qed.

(** C9, as the code has it.  Each bucket lists its keys in the order in
    which the loop visits [all_keys]: it is that visiting order restricted
    to the keys of the bucket's class.  Nothing sorts the keys, so a bucket
    is in key order when the visiting order is. *)
Theorem compare_buckets_follow_visiting_order config patched ks :
  let d := compare ks config patched in
  addition_keys d = filter (λ k, classify config patched k = Some Added) ks ∧
  deletions d = filter (λ k, classify config patched k = Some Deleted) ks ∧
  update_keys d = filter (λ k, classify config patched k = Some Updated) ks ∧
  addition_keys d `sublist_of` ks ∧
  deletions d `sublist_of` ks ∧
  update_keys d `sublist_of` ks ∧
  ∀ R : relation string,
    StronglySorted R ks →
    StronglySorted R (addition_keys d) ∧
    StronglySorted R (deletions d) ∧
    StronglySorted R (update_keys d).
Proof.
  intros d. unfold addition_keys, update_keys, d.
  rewrite compare_additions_keys, compare_deletions_keys,
    compare_updates_keys.
  split_and!; try done; try apply sublist_filter.
  intros R HR. split_and!; by apply StronglySorted_filter.
Qed.

End ComparatorProperties.

(** The scenario of the spec: the delta of [{"a": 1, "b": 2}] and
    [{"b": 3, "c": 4}], and its application. *)
Example compare_scenario :
  compare ["a"; "b"; "c"] ex_config ex_patched =
    {| additions := [{| add_key := "c"; add_value := SInt 4 |}];
       deletions := ["a"];
       updates := [{| upd_key := "b"; upd_from := SInt 2;
                      upd_to := SInt 3 |}] |} ∧
  apply_delta ex_config (compare ["a"; "b"; "c"] ex_config ex_patched) =
    ex_patched.
Proof. split; by vm_compute. Qed.

Lemma iterates_scenario :
  iterates (all_keys ex_config ex_patched) ["a"; "b"; "c"].
Proof.
  split; [apply (bool_decide_unpack _); by vm_compute | by vm_compute].
Defined.

Lemma apply_delta_compare_round_trip_witness :
  iterates (all_keys ex_config ex_patched) ["a"; "b"; "c"] ∧
  dict_eq (apply_delta ex_config (compare ["a"; "b"; "c"] ex_config ex_patched))
          ex_patched = true.
Proof.
  split; [exact iterates_scenario|].
  apply (apply_delta_compare_round_trip ex_config ex_patched ["a"; "b"; "c"]).
  exact iterates_scenario.
Defined.

Lemma compare_classifies_each_key_witness :
  iterates (all_keys ex_config ex_patched) ["a"; "b"; "c"] ∧
  NoDup (addition_keys (compare ["a"; "b"; "c"] ex_config ex_patched) ++
         deletions (compare ["a"; "b"; "c"] ex_config ex_patched) ++
         update_keys (compare ["a"; "b"; "c"] ex_config ex_patched)).
Proof.
  split; [exact iterates_scenario|].
  apply (compare_classifies_each_key ex_config ex_patched ["a"; "b"; "c"]).
  exact iterates_scenario.
Defined.

(** [True == 1]: [compare] reports no change between [{"a": 1}] and
    [{"a": true}], and the patched result keeps the [1]; the two mappings
    are [==] and are not the same value. *)
Example round_trip_bool_int :
  let config : gmap string scalar := {["a" := SInt 1]} in
  let patched : gmap string scalar := {["a" := SBool true]} in
  let result := apply_delta config (compare ["a"] config patched) in
  dict_eq result patched = true ∧ result !! "a" = Some (SInt 1).
Proof. split; by vm_compute. Qed.

(** C9 fails as stated: visiting the two new keys as [b], [a] (a visiting
    order of the key set like any other) lists the additions as [b], [a],
    which is not in key order; visiting them as [a], [b] gives another
    delta for the same two mappings. *)
Lemma compare_buckets_not_sorted :
  let config : gmap string scalar := ∅ in
  iterates (all_keys config ex_config) ["b"; "a"] ∧
  iterates (all_keys config ex_config) ["a"; "b"] ∧
  addition_keys (compare ["b"; "a"] config ex_config) = ["b"; "a"] ∧
  ¬ StronglySorted key_le (addition_keys (compare ["b"; "a"] config ex_config)) ∧
  compare ["a"; "b"] config ex_config ≠ compare ["b"; "a"] config ex_config.
Proof.
  split_and!.
  - split; [apply (bool_decide_unpack _); by vm_compute | by vm_compute].
  - split; [apply (bool_decide_unpack _); by vm_compute | by vm_compute].
  - by vm_compute.
  - intros Hs. vm_compute in Hs.
    apply StronglySorted_cons in Hs as [Hs _].
    apply Forall_cons in Hs as [Hs _]. discriminate Hs.
  - vm_compute. discriminate.
Qed.

(** * Further properties of the model parser *)

Section ParserExtras.
Import ModelParser.
Implicit Types (classes model : Dict ClassModel) (aggs : list Aggregation).
Implicit Types (elem : Element).

(** *** When [parse] succeeds *)

Lemma is_Ok_bind {A B : Type} (r : result A) (k : A → result B) :
  is_Ok (bind r k) ↔ ∃ a, r = Ok a ∧ is_Ok (k a).
Proof.
  destruct r as [a|e]; simpl.
  - split; [intros Hk; by exists a | by intros (? & [= <-] & ?)].
  - split; [by intros [? ?] | by intros (? & ? & _)].
Qed.

Lemma is_Ok_getitem {V : Type} (d : Dict V) k :
  is_Ok (getitem d k) ↔ is_Some (dict_get k d).
Proof.
  unfold getitem. destruct (dict_get k d) as [v|].
  - split; [by eexists | by eexists].
  - split; [by intros [? ?] | by intros [? ?]].
Qed.

Lemma is_Ok_for_each {S A : Type} (body : S → A → result S)
    (P : A → Prop) (l : list A) (s : S) :
  (∀ s a, is_Ok (body s a) ↔ P a) →
  is_Ok (for_each body s l) ↔ Forall P l.
Proof.
  intros Hbody. revert s. induction l as [|a l IH]; intros s.
  - split; [constructor | by eexists].
  - rewrite for_each_cons, is_Ok_bind, Forall_cons. split.
    + intros (s' & Hs' & Hrest). split.
      * apply (Hbody s). by eexists.
      * by apply (IH s').
    + intros [Ha Hl]. apply (Hbody s) in Ha as [s' Hs'].
      exists s'. split; [done | by apply IH].
Qed.

Lemma is_Ok_read_attribute attrs attr :
  is_Ok (read_attribute attrs attr) ↔ complete_attribute attr.
Proof.
  unfold read_attribute, complete_attribute. case_decide as Ht.
  - rewrite is_Ok_bind. setoid_rewrite is_Ok_bind.
    rewrite <- !is_Ok_getitem. split.
    + intros (n & Hn & t & Htype & _) _. split; by eexists.
    + intros Hc. destruct (Hc Ht) as [[n Hn] [t Htype]].
      exists n. split; [done|]. exists t. split; [done | by eexists].
  - split; [done | by eexists].
Qed.

Lemma is_Ok_read_class elem :
  is_Ok (read_class elem) ↔
  is_Some (dict_get "name" (attrib elem)) ∧
  Forall complete_attribute (children elem).
Proof.
  unfold read_class. rewrite is_Ok_bind. setoid_rewrite is_Ok_bind.
  rewrite <- is_Ok_getitem,
    <- (is_Ok_for_each read_attribute complete_attribute _ [])
    by apply is_Ok_read_attribute.
  split.
  - intros (n & Hn & attrs & Hattrs & _). split; by eexists.
  - intros [[n Hn] [attrs Hattrs]].
    exists n. split; [done|]. exists attrs. split; [done | by eexists].
Qed.

Lemma is_Ok_read_aggregation elem :
  is_Ok (read_aggregation elem) ↔
  Forall (λ k, is_Some (dict_get k (attrib elem)))
         ["source"; "target"; "sourceMultiplicity"; "targetMultiplicity"].
Proof.
  unfold read_aggregation. rewrite !Forall_cons, Forall_nil.
  rewrite is_Ok_bind. repeat setoid_rewrite is_Ok_bind.
  rewrite <- !is_Ok_getitem. split.
  - intros (s & Hs & t & Ht & sm & Hsm & tm & Htm & _).
    split_and!; by eexists.
  - intros ([s Hs] & [t Ht] & [sm Hsm] & [tm Htm] & _).
    exists s. split; [done|]. exists t. split; [done|].
    exists sm. split; [done|]. exists tm. split; [done | by eexists].
Qed.

Lemma is_Ok_read_element st elem :
  is_Ok (read_element st elem) ↔ complete_element elem.
Proof.
  destruct st as [classes aggs]. unfold read_element, complete_element.
  destruct (decide (tag elem = "Class")) as [Hc|Hc].
  - rewrite is_Ok_bind, <- is_Ok_read_class. split.
    + intros (c & Hr & _). split; [intros _; by eexists|].
      rewrite Hc. discriminate.
    + intros [Hclass _]. destruct (Hclass Hc) as [c Hr].
      exists c. split; [done | by eexists].
  - destruct (decide (tag elem = "Aggregation")) as [Ha|Ha].
    + rewrite is_Ok_bind, <- is_Ok_read_aggregation. split.
      * intros (a & Hr & _). split; [done|]. intros _. by eexists.
      * intros [_ Hagg]. destruct (Hagg Ha) as [a Hr].
        exists a. split; [done | by eexists].
    + split; [done | by eexists].
Qed.

(** X3. [parse] returns a model exactly when every [Class] element has a
    [name] and its [Attribute] children have a [name] and a [type], and
    every [Aggregation] element has its four attributes; elements and
    children with other tags are never looked at. *)
Theorem parse_succeeds_iff_complete (root : Element) :
  is_Ok (parse root) ↔ Forall complete_element (children root).
Proof.
  unfold parse. rewrite is_Ok_bind.
  rewrite <- (is_Ok_for_each read_element complete_element _ ([], []))
    by apply is_Ok_read_element.
  split.
  - intros (st & Hst & _). by eexists.
  - intros [[classes aggs] Hst]. eexists. split; [done | by eexists].
Qed.

(** *** What the first pass stores *)

Lemma first_pass_classes elems classes aggs classes' aggs' :
  for_each read_element (classes, aggs) elems = Ok (classes', aggs') →
  ∃ cms, map_result read_class (filter (λ e, tag e = "Class") elems) =
           Ok cms ∧
         classes' = foldl (λ d c, dict_set (name c) c d) classes cms.
Proof.
  revert classes aggs. induction elems as [|elem elems IH];
    intros classes aggs.
  - intros [= <- <-]. by exists [].
  - rewrite for_each_cons, filter_cons.
    destruct (read_element (classes, aggs) elem) as [[cl1 ag1]|e] eqn:Hr;
      cbn [bind]; [|done].
    intros Hrest. destruct (IH _ _ Hrest) as (cms & Hcms & ->).
    unfold read_element in Hr.
    destruct (decide (tag elem = "Class")) as [Hc|Hc].
    + destruct (read_class elem) as [cm|] eqn:Hcm; cbn [bind] in Hr; [|done].
      injection Hr as <- <-. exists (cm :: cms).
      by rewrite map_result_cons, Hcm, Hcms.
    + exists cms. split; [done|].
      destruct (decide (tag elem = "Aggregation")).
      * destruct (read_aggregation elem); cbn [bind] in Hr; [|done].
        by injection Hr as <- <-.
      * by injection Hr as <- <-.
Qed.

Lemma dict_get_foldl_store (cms : list ClassModel) classes n :
  dict_get n (foldl (λ d c, dict_set (name c) c d) classes cms) =
  match last (filter (λ c, name c = n) cms) with
  | Some c => Some c
  | None => dict_get n classes
  end.
Proof.
  induction cms as [|c cms IH] using rev_ind; [done|].
  rewrite foldl_app, filter_app, filter_cons, filter_nil. cbn [foldl].
  rewrite dict_get_set. destruct (decide (n = name c)) as [->|Hne].
  - rewrite decide_True by done. by rewrite last_snoc.
  - rewrite decide_False by done. by rewrite app_nil_r.
Qed.

Lemma dict_keys_set {V : Type} (d : Dict V) k v :
  dict_keys (dict_set k v d) =
  if decide (k ∈ dict_keys d) then dict_keys d else dict_keys d ++ [k].
Proof.
  unfold dict_keys. induction d as [|[k0 v0] d IH]; cbn [dict_set map fst].
  - case_decide as Hin; [by apply elem_of_nil in Hin | done].
  - destruct (decide (k = k0)) as [->|Hne]; cbn [map fst].
    + by rewrite decide_True by left.
    + rewrite IH. destruct (decide (k ∈ map fst d)) as [Hin|Hin].
      * by rewrite decide_True by (by right).
      * rewrite decide_False; [done|].
        intros [?|?]%elem_of_cons; done.
Qed.

Lemma first_occurrences_snoc l k :
  first_occurrences (l ++ [k]) =
  if decide (k ∈ first_occurrences l) then first_occurrences l
  else first_occurrences l ++ [k].
Proof.
  unfold first_occurrences. rewrite reverse_snoc. cbn [remove_dups].
  unfold decide_rel.
  destruct (list_elem_of_dec k (reverse l)) as [Hin|Hin].
  - rewrite decide_True; [done|].
    by rewrite elem_of_reverse, elem_of_remove_dups.
  - rewrite decide_False.
    + by rewrite reverse_cons.
    + by rewrite elem_of_reverse, elem_of_remove_dups.
Qed.

Lemma dict_keys_foldl_store (cms : list ClassModel) :
  dict_keys (foldl (λ d c, dict_set (name c) c d) [] cms) =
  first_occurrences (map name cms).
Proof.
  induction cms as [|c cms IH] using rev_ind; [done|].
  rewrite foldl_app, map_app. cbn [foldl map].
  by rewrite dict_keys_set, first_occurrences_snoc, IH.
Qed.

Lemma dict_keys_foldl_resolve aggs classes :
  dict_keys (foldl resolve classes aggs) = dict_keys classes.
Proof.
  revert classes. induction aggs as [|agg aggs IH]; intros classes; [done|].
  cbn [foldl]. rewrite IH. unfold resolve.
  destruct (dict_get (target agg) classes) as [tc|] eqn:Ht; [|done].
  rewrite dict_keys_set. case_decide as Hin; [done|].
  exfalso. apply Hin. apply dict_get_Some_elem_of in Ht.
  apply list_elem_of_In, in_map_iff. exists (target agg, tc).
  split; [done | by apply list_elem_of_In].
Qed.

Lemma read_class_no_children elem c :
  read_class elem = Ok c → child_classes c = [].
Proof.
  unfold read_class.
  destruct (getitem (attrib elem) "name"); cbn [bind]; [|done].
  destruct (for_each read_attribute [] (children elem)); cbn [bind]; [|done].
  by intros [= <-].
Qed.

Lemma map_result_Forall2 {A B : Type} (f : A → result B) l bs :
  map_result f l = Ok bs → Forall2 (λ a b, f a = Ok b) l bs.
Proof.
  revert bs. induction l as [|a l IH]; intros bs.
  - intros [= <-]. constructor.
  - rewrite map_result_cons.
    destruct (f a) as [b|] eqn:Hb; cbn [bind]; [|done].
    destruct (map_result f l) as [bs'|]; cbn [bind]; [|done].
    intros [= <-]. constructor; [done | by apply IH].
Qed.

Lemma parse_inv root model aggs :
  parse root = Ok (model, aggs) →
  ∃ cms,
    map_result read_class (class_elements root) = Ok cms ∧
    model = foldl resolve (foldl (λ d c, dict_set (name c) c d) [] cms) aggs.
Proof.
  unfold parse.
  destruct (for_each read_element ([], []) (children root))
    as [[classes ags]|] eqn:Hfirst; cbn [bind]; [|done].
  intros [= <- <-].
  destruct (first_pass_classes _ _ _ _ _ Hfirst) as (cms & Hcms & ->).
  by exists cms.
Qed.

(** X1. In the model of [parse], the class stored under a name is the
    last [Class] element declared with that name, as [read_class] reads it,
    holding as children the references of the aggregations that target the
    name; a name that no [Class] element declares is not in the model. *)
Theorem parse_stores_last_declaration (root : Element) model aggs :
  parse root = Ok (model, aggs) →
  ∃ cms,
    map_result read_class (class_elements root) = Ok cms ∧
    ∀ n, dict_get n model =
         (λ c, set_child_classes c
                 (map child_ref (filter (λ a, target a = n) aggs)))
           <$> last (filter (λ c, name c = n) cms).
Proof.
  intros Hparse. destruct (parse_inv _ _ _ Hparse) as (cms & Hcms & ->).
  exists cms. split; [done|]. intros n.
  rewrite dict_get_foldl_resolve, dict_get_foldl_store.
  destruct (last (filter (λ c, name c = n) cms)) as [c|] eqn:Hlast;
    [|done].
  simpl. f_equal. unfold set_child_classes. f_equal.
  assert (Hc : c ∈ cms).
  { apply last_Some_elem_of in Hlast.
    by apply list_elem_of_filter in Hlast as [_ ?]. }
  apply map_result_Forall2 in Hcms.
  apply list_elem_of_lookup in Hc as [i Hi].
  destruct (Forall2_lookup_r _ _ _ _ _ Hcms Hi) as (elem & _ & Hread).
  by rewrite (read_class_no_children _ _ Hread).
Qed.

(** X2. The model of [parse] lists the class names in the order of their
    first declaration, each once, whatever later declarations replace; the
    descriptors of [MetaJsonGenerator.generate] follow the same order. *)
Theorem parse_keeps_first_declaration_order (root : Element) model aggs :
  parse root = Ok (model, aggs) →
  ∃ cms,
    map_result read_class (class_elements root) = Ok cms ∧
    dict_keys model = first_occurrences (map name cms) ∧
    NoDup (dict_keys model) ∧
    map (dict_get "class") (MetaJsonGenerator.generate model) =
      map (λ n, Some (JStr n)) (first_occurrences (map name cms)).
Proof.
  intros Hparse. destruct (parse_inv _ _ _ Hparse) as (cms & Hcms & ->).
  exists cms. split; [done|].
  assert (Hkeys : dict_keys (foldl resolve
                    (foldl (λ d c, dict_set (name c) c d) [] cms) aggs) =
                  first_occurrences (map name cms))
    by (by rewrite dict_keys_foldl_resolve, dict_keys_foldl_store).
  split_and!; [done| |].
  - rewrite Hkeys. unfold first_occurrences.
    rewrite reverse_Permutation. apply NoDup_remove_dups.
  - rewrite <- Hkeys. unfold MetaJsonGenerator.generate, dict_keys.
    rewrite !map_map. apply map_ext. intros [n c]. simpl.
    unfold MetaJsonGenerator.class_entry.
    by destruct (child_classes c).
Qed.

(** X4. An element that is neither a [Class] nor an [Aggregation] changes
    nothing, wherever it stands in the description: with or without it,
    [parse] returns the same model and aggregations, or raises the same
    error. *)
Theorem parse_ignores_other_elements (root : Element) before after elem :
  children root = before ++ after →
  tag elem ≠ "Class" → tag elem ≠ "Aggregation" →
  parse (with_children root (before ++ elem :: after)) = parse root.
Proof.
  intros Hkids Hc Ha. unfold parse.
  change (children (with_children root (before ++ elem :: after)))
    with (before ++ elem :: after).
  rewrite Hkids, !for_each_app.
  destruct (for_each read_element ([], []) before) as [[classes aggs]|];
    [|done].
  cbn [bind]. rewrite for_each_cons. unfold read_element at 1.
  by rewrite !decide_False by done.
Qed.

(** X12. For each class of a parsed model, the [min] and [max] of its
    descriptor are those of the first aggregation of the description that
    targets the class, and are absent when none does. *)
Theorem metadata_min_max_of_first_aggregation (root : Element) model aggs :
  parse root = Ok (model, aggs) →
  Forall2 (λ kv entry,
             let first := head (filter (λ a, target a = kv.1) aggs) in
             dict_get "min" entry =
               (λ a, JStr (child_min (child_ref a))) <$> first ∧
             dict_get "max" entry =
               (λ a, JStr (child_max (child_ref a))) <$> first)
          model (MetaJsonGenerator.generate model).
Proof.
  intros Hparse.
  assert (Hkids : ∀ n c, (n, c) ∈ model →
            child_classes c = map child_ref (filter (λ a, target a = n) aggs)).
  { intros n c Hin. apply (parse_children _ _ _ _ _ Hparse).
    apply dict_get_named; [|done]. by apply (parse_model_ok _ _ _ Hparse). }
  clear Hparse. unfold MetaJsonGenerator.generate.
  induction model as [|[n c] model IH]; simpl; constructor.
  - destruct (class_entry_fields n c) as (_ & _ & _ & _ & Hmin & Hmax).
    simpl in Hmin, Hmax. rewrite Hmin, Hmax, (Hkids n c) by left.
    simpl. by destruct (filter (λ a, target a = n) aggs).
  - apply IH. intros n' c' Hin. apply Hkids. by right.
Qed.

End ParserExtras.

Section ParserExtrasRuns.
Import ModelParser.

(** A class declared twice: the second declaration is the one stored, in
    the place of the first. *)
Example twice_parse : parse twice_xml = Ok (twice_model, twice_aggregations).
Proof. reflexivity. Qed.

Lemma parse_stores_last_declaration_witness :
  ∃ cms,
    map_result read_class (class_elements twice_xml) = Ok cms ∧
    ∀ n, dict_get n twice_model =
         (λ c, set_child_classes c
                 (map child_ref
                    (filter (λ a, target a = n) twice_aggregations)))
           <$> last (filter (λ c, name c = n) cms).
Proof.
  apply (parse_stores_last_declaration twice_xml twice_model
           twice_aggregations).
  reflexivity.
Defined.

Lemma parse_keeps_first_declaration_order_witness :
  ∃ cms,
    map_result read_class (class_elements twice_xml) = Ok cms ∧
    dict_keys twice_model = first_occurrences (map name cms) ∧
    NoDup (dict_keys twice_model) ∧
    map (dict_get "class") (MetaJsonGenerator.generate twice_model) =
      map (λ n, Some (JStr n)) (first_occurrences (map name cms)).
Proof.
  apply (parse_keeps_first_declaration_order twice_xml twice_model
           twice_aggregations).
  reflexivity.
Defined.

Lemma parse_ignores_other_elements_witness :
  parse noisy_xml = parse robot_xml.
Proof.
  apply (parse_ignores_other_elements robot_xml
           (take 2 (children robot_xml)) (drop 2 (children robot_xml))
           (mkElement "Note" [("text", "ignored")] None []));
    by vm_compute.
Defined.

Lemma metadata_min_max_of_first_aggregation_witness :
  Forall2 (λ kv entry,
             let first :=
               head (filter (λ a, target a = kv.1) robot_aggregations) in
             dict_get "min" entry =
               (λ a, JStr (child_min (child_ref a))) <$> first ∧
             dict_get "max" entry =
               (λ a, JStr (child_max (child_ref a))) <$> first)
          robot_model (MetaJsonGenerator.generate robot_model).
Proof.
  apply (metadata_min_max_of_first_aggregation robot_xml robot_model
           robot_aggregations).
  reflexivity.
Defined.

End ParserExtrasRuns.

(** * Further properties of multiplicities and of the tree generator *)

Section MultiplicityExtras.
Import ModelParser.
Implicit Types (s a b : string) (c : ascii).

Lemma contains_dotdot_app_l s t :
  contains_dotdot s = true → contains_dotdot (s +:+ t) = true.
Proof.
  induction s as [| c | c c' s _ IH] using string_ind2; try done.
  change (String c (String c' s) +:+ t)
    with (String c (String c' (s +:+ t))).
  rewrite !contains_dotdot_cons2.
  intros [Hd|Hc]%orb_true_iff; apply orb_true_iff; [by left|right].
  by apply (IH Hc).
Qed.

Lemma contains_dotdot_intro a b : contains_dotdot (a +:+ ".." +:+ b) = true.
Proof.
  induction a as [|c a IH]; [done|].
  change (String c a +:+ ".." +:+ b) with (String c (a +:+ ".." +:+ b)).
  destruct (a +:+ ".." +:+ b) as [|c' s] eqn:Es; [done|].
  rewrite contains_dotdot_cons2, IH. apply orb_true_r.
Qed.

(** A separator that is the first [".."] of the string ends the first
    chunk. *)
Lemma split_dotdot_prefix a b :
  contains_dotdot (a +:+ ".") = false →
  split_dotdot (a +:+ ".." +:+ b) = a :: split_dotdot b.
Proof.
  induction a as [| c | c c' a _ IH] using string_ind2.
  - done.
  - change (contains_dotdot (String c EmptyString +:+ "."))
      with ((is_dot c && is_dot ".") || false).
    intros Hd%orb_false_iff. destruct Hd as [Hd _].
    change (String c EmptyString +:+ ".." +:+ b)
      with (String c (String "." (String "." b))).
    rewrite split_dotdot_cons2, Hd.
    change (split_dotdot (String "." (String "." b)))
      with (EmptyString :: split_dotdot b).
    done.
  - change (String c (String c' a) +:+ ".")
      with (String c (String c' (a +:+ "."))).
    change (String c (String c' a) +:+ ".." +:+ b)
      with (String c (String c' (a +:+ ".." +:+ b))).
    rewrite contains_dotdot_cons2, split_dotdot_cons2.
    intros [Hd Hc]%orb_false_iff. rewrite Hd.
    change (String c' (a +:+ ".." +:+ b))
      with (String c' a +:+ ".." +:+ b).
    by rewrite (IH Hc).
Qed.

(** X5. A multiplicity written [a..b], where [a..] holds no earlier [".."]
    and [b] holds none, is read back as minimum [a] and maximum [b]. *)
Theorem child_ref_reads_range (src tgt tm a b : string) :
  contains_dotdot (a +:+ ".") = false →
  contains_dotdot b = false →
  child_ref {| source := src; target := tgt;
               source_multiplicity := a +:+ ".." +:+ b;
               target_multiplicity := tm |} = (src, a, b).
Proof.
  intros Ha Hb. unfold child_ref. cbn [source source_multiplicity].
  rewrite contains_dotdot_intro, (split_dotdot_prefix a b Ha),
    (split_dotdot_whole b Hb).
  done.
Qed.

(** X6. Whatever the multiplicity, neither the minimum nor the maximum of
    the child reference holds a [".."]. *)
Theorem child_ref_bounds_hold_no_separator (agg : Aggregation) :
  contains_dotdot (child_min (child_ref agg)) = false ∧
  contains_dotdot (child_max (child_ref agg)) = false.
Proof.
  unfold child_ref, child_min, child_max. simpl.
  destruct (contains_dotdot (source_multiplicity agg)) eqn:Hc.
  - split.
    + destruct (split_dotdot_first _ Hc) as (rest & _ & Hno).
      destruct (contains_dotdot (first_item _)) eqn:Hf; [|done].
      by rewrite (contains_dotdot_app_l _ "." Hf) in Hno.
    + by destruct (split_dotdot_last _ Hc) as (front & _ & Hno & _).
  - by rewrite (split_dotdot_whole _ Hc).
Qed.

Lemma child_ref_reads_range_witness :
  child_ref {| source := "Wheel"; target := "Robot";
               source_multiplicity := "0" +:+ ".." +:+ "*";
               target_multiplicity := "1" |} = ("Wheel", "0", "*").
Proof. by apply (child_ref_reads_range "Wheel" "Robot" "1" "0" "*"). Defined.

(** Only the two ends of a multiplicity with several separators are kept. *)
Example child_ref_three_parts :
  child_ref {| source := "Wheel"; target := "Robot";
               source_multiplicity := "1..2..3";
               target_multiplicity := "1" |} = ("Wheel", "1", "3").
Proof. reflexivity. Qed.

End MultiplicityExtras.

Section TreeExtras.
Import ConfigXmlGenerator.
Implicit Types (model : Dict ClassModel) (depth : nat).

Lemma build_xml_child model depth n t c r :
  build_xml model (S depth) n = Ok t →
  dict_get n model = Some c → r ∈ child_classes c →
  ∃ t', build_xml model depth (child_name r) = Ok t'.
Proof.
  rewrite build_xml_succ. intros Hb Hn Hr.
  rewrite (getitem_Some _ _ _ Hn) in Hb. cbn [bind] in Hb.
  destruct (map_result _ (child_classes c)) as [ts|] eqn:Hm;
    cbn [bind] in Hb; [|done].
  apply (map_result_Ok_inv _ _ _ Hm r Hr).
Qed.

(** If a class is expanded, every class it reaches is expanded at no
    greater depth. *)
Lemma build_xml_reaches model n m :
  reaches model n m →
  ∀ depth t, build_xml model depth n = Ok t →
  ∃ depth' t', (depth' ≤ depth)%nat ∧ build_xml model depth' m = Ok t'.
Proof.
  induction 1 as [n | n c r m Hn Hr _ IH]; intros depth t Hb.
  - by exists depth, t.
  - destruct depth as [|depth]; [done|].
    destruct (build_xml_child _ _ _ _ _ _ Hb Hn Hr) as (t' & Hb').
    destruct (IH _ _ Hb') as (d' & t'' & Hle & Hb'').
    exists d', t''. split; [lia | done].
Qed.

Lemma build_xml_cycle model n c r :
  dict_get n model = Some c → r ∈ child_classes c →
  reaches model (child_name r) n →
  ∀ depth t, build_xml model depth n ≠ Ok t.
Proof.
  intros Hn Hr Hback depth.
  induction depth as [depth IH] using lt_wf_ind. intros t Hb.
  destruct depth as [|depth]; [done|].
  destruct (build_xml_child _ _ _ _ _ _ Hb Hn Hr) as (t' & Hb').
  destruct (build_xml_reaches _ _ _ Hback _ _ Hb') as (d' & t'' & Hle & Hb'').
  apply (IH d' ltac:(lia) t'' Hb'').
Qed.

Lemma build_xml_closed_error model depth n e :
  closed model → is_Some (dict_get n model) →
  build_xml model depth n = Err e → e = RecursionError.
Proof.
  intros Hcl. revert n. induction depth as [|depth IH]; intros n [c Hn].
  - by intros [= <-].
  - rewrite build_xml_succ, (getitem_Some _ _ _ Hn). cbn [bind].
    destruct (map_result _ (child_classes c)) as [ts|e'] eqn:Hm;
      cbn [bind]; [done|].
    intros [= ->].
    apply map_result_Err_inv in Hm as (r & Hr & Hbuild).
    apply (IH (child_name r)); [|done].
    by apply (closed_child _ _ _ _ Hcl Hn).
Qed.

(** Whatever [build_xml] returns is the expansion of the class. *)
Lemma build_xml_sound model depth n t :
  build_xml model depth n = Ok t → expansion model n t.
Proof.
  revert n t. induction depth as [|depth IH]; intros n t; [done|].
  rewrite build_xml_succ.
  destruct (dict_get n model) as [c|] eqn:Hn.
  - rewrite (getitem_Some _ _ _ Hn). cbn [bind].
    destruct (map_result _ (child_classes c)) as [ts|] eqn:Hm;
      cbn [bind]; [|done].
    intros [= <-]. apply expansion_node; [done|].
    apply map_result_Forall2 in Hm.
    eapply Forall2_impl; [exact Hm|]. intros r t' Hr. by apply IH.
  - by rewrite (getitem_None _ _ Hn).
Qed.

(** X13. A tree that [generate] returns, for any model, is the expansion
    of the first class flagged as root; every class met while expanding it
    then exists, and none of them contains itself. *)
Theorem generate_returns_only_expansions model depth tree root_class :
  generate depth model = Ok tree →
  List.find is_root (dict_values model) = Some root_class →
  expansion model (name root_class) tree ∧
  (∀ m, reaches model (name root_class) m → is_Some (dict_get m model)) ∧
  (∀ n c r, reaches model (name root_class) n →
            dict_get n model = Some c → r ∈ child_classes c →
            ¬ reaches model (child_name r) n).
Proof.
  unfold generate. intros Hb Hfind. rewrite Hfind in Hb. split_and!.
  - by apply (build_xml_sound _ _ _ _ Hb).
  - by apply (build_xml_Ok_reaches _ _ _ _ Hb).
  - intros n c r Hreach Hn Hr Hback.
    destruct (build_xml_reaches _ _ _ Hreach _ _ Hb) as (d' & t' & _ & Hb').
    by destruct (build_xml_cycle _ _ _ _ Hn Hr Hback d' t').
Qed.

Lemma generate_returns_only_expansions_witness :
  ∃ tree, generate 1000 robot_model = Ok tree ∧
          expansion robot_model "Robot" tree.
Proof.
  eexists. split; [by vm_compute|].
  eapply (generate_returns_only_expansions robot_model 1000 _ robot_class);
    by vm_compute.
Defined.

(** X7. If a class that contains itself, directly or through other
    classes, is met while expanding the root, [generate] returns no tree
    at any recursion depth; where every child reference names a class,
    the failure is the recursion limit. *)
Theorem generate_cycle_never_returns model root_class n c r depth :
  List.find is_root (dict_values model) = Some root_class →
  reaches model (name root_class) n →
  dict_get n model = Some c → r ∈ child_classes c →
  reaches model (child_name r) n →
  ∃ e, generate depth model = Err e ∧
       (e = RecursionError ∨ ∃ k, e = KeyError k ∧ dict_get k model = None) ∧
       (closed model → e = RecursionError).
Proof.
  intros Hfind Hreach Hn Hr Hback. unfold generate. rewrite Hfind.
  destruct (build_xml model depth (name root_class)) as [t|e] eqn:Hb.
  - destruct (build_xml_reaches _ _ _ Hreach _ _ Hb) as (d' & t' & _ & Hb').
    by destruct (build_xml_cycle _ _ _ _ Hn Hr Hback d' t').
  - exists e. split_and!; [done | by apply (build_xml_error _ _ _ _ Hb) |].
    intros Hcl. apply (build_xml_closed_error _ _ _ _ Hcl) in Hb; [done|].
    inversion Hreach; subst; by eexists.
Qed.

Lemma generate_cycle_never_returns_witness :
  ∃ e, generate 1000 cyclic_model = Err e ∧
       (e = RecursionError ∨
        ∃ k, e = KeyError k ∧ dict_get k cyclic_model = None).
Proof.
  destruct (generate_cycle_never_returns cyclic_model cyclic_root "A"
              {| name := "A"; is_root := false; documentation := "";
                 attributes := []; child_classes := [("A", "1", "1")] |}
              ("A", "1", "1") 1000) as (e & He & Hkind & _).
  - reflexivity.
  - apply (reaches_child cyclic_model "Root" cyclic_root ("A", "1", "1") "A");
      [reflexivity | by left | apply reaches_here].
  - reflexivity.
  - by left.
  - apply reaches_here.
  - by exists e.
Defined.

End TreeExtras.

(** * Further properties of the differ and patcher *)

Section ComparatorExtras.
Context {V : Type} `{PyEq V}.
Implicit Types (config patched : gmap string V) (ks : list string).
Implicit Types (delta : Delta V) (k : string).

(** *** [apply_delta] on any delta *)

Lemma lookup_foldl_insert_last {A : Type} (key : A → string) (val : A → V)
    (l : list A) (m : gmap string V) k :
  foldl (λ m a, <[key a := val a]> m) m l !! k =
  match last (filter (λ a, key a = k) l) with
  | Some a => Some (val a)
  | None => m !! k
  end.
Proof.
  induction l as [|a l IH] using rev_ind; [done|].
  rewrite foldl_app, filter_app, filter_cons, filter_nil. cbn [foldl].
  destruct (decide (key a = k)) as [<-|Hne].
  - by rewrite lookup_insert_eq, last_snoc.
  - by rewrite lookup_insert_ne, app_nil_r.
Qed.

Lemma apply_delta_lookup config delta k :
  apply_delta config delta !! k =
  match last (filter (λ a, add_key a = k) (additions delta)) with
  | Some a => Some (add_value a)
  | None =>
      match last (filter (λ u, upd_key u = k) (updates delta)) with
      | Some u => Some (upd_to u)
      | None => if decide (k ∈ deletions delta) then None else config !! k
      end
  end.
Proof.
  unfold apply_delta, apply_addition, apply_update.
  rewrite !lookup_foldl_insert_last.
  by rewrite lookup_foldl_deletion.
Qed.

(** X10. What [apply_delta] leaves under a key, for any delta: the value
    of the last addition for the key if there is one; otherwise the [to] of
    the last update for the key, whether or not the key was present or
    deleted; otherwise nothing if the key is listed under deletions, and
    the value of [config] if the delta does not mention the key. *)
Theorem apply_delta_precedence config delta k :
  apply_delta config delta !! k =
  match last (filter (λ a, add_key a = k) (additions delta)) with
  | Some a => Some (add_value a)
  | None =>
      match last (filter (λ u, upd_key u = k) (updates delta)) with
      | Some u => Some (upd_to u)
      | None => if decide (k ∈ deletions delta) then None else config !! k
      end
  end.
Proof. apply apply_delta_lookup. Qed.

(** X11. Applying a delta a second time changes nothing. *)
Theorem apply_delta_idempotent config delta :
  apply_delta (apply_delta config delta) delta = apply_delta config delta.
Proof.
  apply map_eq. intros k.
  rewrite (apply_delta_lookup (apply_delta config delta)).
  rewrite (apply_delta_lookup config).
  destruct (last (filter (λ a, add_key a = k) (additions delta))); [done|].
  destruct (last (filter (λ u, upd_key u = k) (updates delta))); [done|].
  by case_decide.
Qed.

(** *** [compare] with its arguments exchanged *)

Lemma classify_swap_Added config patched k :
  classify config patched k = Some Added ↔
  classify patched config k = Some Deleted.
Proof. rewrite classify_Added, classify_Deleted. tauto. Qed.

(** X9. Exchanging the two snapshots exchanges additions and deletions:
    for the same visiting order, the keys added from [config] to [patched]
    are the keys deleted from [patched] to [config], and conversely. *)
Theorem compare_exchanged config patched ks :
  addition_keys (compare ks config patched) =
    deletions (compare ks patched config) ∧
  deletions (compare ks config patched) =
    addition_keys (compare ks patched config).
Proof.
  unfold addition_keys.
  rewrite !compare_additions_keys, !compare_deletions_keys.
  split; apply list_filter_iff; intros k.
  - apply classify_swap_Added.
  - symmetry. apply classify_swap_Added.
Qed.

(** *** The empty delta *)

Lemma filter_nil_iff {A : Type} (P : A → Prop) `{∀ x, Decision (P x)}
    (l : list A) :
  filter P l = [] ↔ ∀ x, x ∈ l → ¬ P x.
Proof.
  split.
  - intros Hnil x Hx HP. by apply (filter_nil_not_elem_of P l x).
  - intros Hl. induction l as [|x l IH]; [done|].
    rewrite filter_cons, decide_False by (apply Hl; by left).
    apply IH. intros y Hy. apply Hl. by right.
Qed.

Lemma map_nil_iff {A B : Type} (f : A → B) (l : list A) :
  map f l = [] ↔ l = [].
Proof. by destruct l. Qed.

Lemma compare_empty_iff config patched ks :
  compare ks config patched = empty_delta ↔
  ∀ k, k ∈ ks → classify config patched k ≠ Some Added ∧
                classify config patched k ≠ Some Deleted ∧
                classify config patched k ≠ Some Updated.
Proof.
  pose proof (compare_additions_keys ks config patched) as Ea.
  pose proof (compare_deletions_keys ks config patched) as Ed.
  pose proof (compare_updates_keys ks config patched) as Eu.
  destruct (compare ks config patched) as [adds dels upds].
  cbn [additions deletions updates] in Ea, Ed, Eu. split.
  - intros [= -> -> ->]. intros k Hk. symmetry in Ea, Ed, Eu.
    simpl in Ea, Eu.
    rewrite filter_nil_iff in Ea. rewrite filter_nil_iff in Ed.
    rewrite filter_nil_iff in Eu. by split_and!; [apply Ea|apply Ed|apply Eu].
  - intros Hall. unfold empty_delta. f_equal.
    + apply (map_nil_iff add_key). rewrite Ea. apply filter_nil_iff.
      intros k Hk. by apply (Hall k Hk).
    + rewrite Ed. apply filter_nil_iff. intros k Hk. by apply (Hall k Hk).
    + apply (map_nil_iff upd_key). rewrite Eu. apply filter_nil_iff.
      intros k Hk. by apply (Hall k Hk).
Qed.

(** X8. The delta of two snapshots is empty exactly when they hold the
    same keys and, under no key, two values that compare [!=]. *)
Theorem compare_empty_iff_nothing_differs config patched ks :
  iterates (all_keys config patched) ks →
  compare ks config patched = empty_delta ↔
  dom config = dom patched ∧
  ∀ k x y, config !! k = Some x → patched !! k = Some y → py_ne x y = false.
Proof.
  intros Hks. pose proof (λ k, iterates_elem_of _ _ _ k Hks) as Hk.
  rewrite compare_empty_iff. split.
  - intros Hall. split.
    + apply set_eq. intros k. rewrite !elem_of_dom. split; intros Hs.
      * destruct (Hall k) as (_ & Hd & _); [apply Hk; by left|].
        rewrite classify_Deleted in Hd.
        destruct (patched !! k); [by eexists|]. exfalso; by apply Hd.
      * destruct (Hall k) as (Ha & _ & _); [apply Hk; by right|].
        rewrite classify_Added in Ha.
        destruct (config !! k); [by eexists|]. exfalso; by apply Ha.
    + intros k x y Hx Hy.
      destruct (Hall k) as (_ & _ & Hu); [apply Hk; left; by eexists|].
      rewrite classify_Updated in Hu.
      destruct (py_ne x y) eqn:Exy; [|done].
      destruct Hu. by exists x, y.
  - intros [Hdom Hval] k _.
    assert (Hboth : is_Some (config !! k) ↔ is_Some (patched !! k))
      by (by rewrite <- !elem_of_dom, Hdom).
    rewrite classify_Added, classify_Deleted, classify_Updated.
    split_and!.
    + intros [Hn Hs]. apply Hboth in Hs. rewrite Hn in Hs.
      by destruct Hs.
    + intros [Hs Hn]. apply Hboth in Hs. rewrite Hn in Hs.
      by destruct Hs.
    + intros (x & y & Hx & Hy & Hne).
      by rewrite (Hval k x y Hx Hy) in Hne.
Qed.

(** X14. The order in which the set of keys is visited changes the order
    of the entries of the delta and nothing else: the patched result is
    the same mapping for any two visiting orders. *)
Theorem apply_delta_compare_any_order config patched ks ks' :
  iterates (all_keys config patched) ks →
  iterates (all_keys config patched) ks' →
  apply_delta config (compare ks config patched) =
    apply_delta config (compare ks' config patched) ∧
  addition_keys (compare ks config patched) ≡ₚ
    addition_keys (compare ks' config patched) ∧
  deletions (compare ks config patched) ≡ₚ
    deletions (compare ks' config patched) ∧
  update_keys (compare ks config patched) ≡ₚ
    update_keys (compare ks' config patched).
Proof.
  intros Hks Hks'.
  assert (Hperm : ks ≡ₚ ks').
  { destruct Hks as [Hnd Hset], Hks' as [Hnd' Hset'].
    apply NoDup_Permutation; [done..|]. intros k.
    by rewrite <- !(elem_of_list_to_set (C := gset string)), Hset, Hset'. }
  split_and!.
  - apply map_eq. intros k.
    by rewrite !apply_compare_lookup.
  - unfold addition_keys. rewrite !compare_additions_keys. by rewrite Hperm.
  - rewrite !compare_deletions_keys. by rewrite Hperm.
  - unfold update_keys. rewrite !compare_updates_keys. by rewrite Hperm.
Qed.

End ComparatorExtras.

Lemma compare_empty_iff_nothing_differs_witness :
  compare ["a"; "b"; "c"] ex_config ex_patched ≠ empty_delta.
Proof.
  intros Hempty.
  apply (compare_empty_iff_nothing_differs ex_config ex_patched
           ["a"; "b"; "c"] iterates_scenario) in Hempty as [_ Hval].
  by specialize (Hval "b" (SInt 2) (SInt 3) eq_refl eq_refl).
Defined.

(** An update for a key that [config] lacks creates it, and an addition for
    a key listed under deletions brings it back. *)
Example apply_delta_creates_and_restores :
  apply_delta ex_config
    {| additions := [{| add_key := "a"; add_value := SInt 9 |}];
       deletions := ["a"; "zz"];
       updates := [{| upd_key := "new"; upd_from := SInt 0;
                      upd_to := SInt 7 |}] |} =
  {["a" := SInt 9; "b" := SInt 2; "new" := SInt 7]}.
Proof. by vm_compute. Qed.

Lemma iterates_scenario_reversed :
  iterates (all_keys ex_config ex_patched) ["c"; "b"; "a"].
Proof.
  split; [apply (bool_decide_unpack _); by vm_compute | by vm_compute].
Defined.

Lemma apply_delta_compare_any_order_witness :
  apply_delta ex_config (compare ["a"; "b"; "c"] ex_config ex_patched) =
  apply_delta ex_config (compare ["c"; "b"; "a"] ex_config ex_patched).
Proof.
  apply (apply_delta_compare_any_order ex_config ex_patched
           ["a"; "b"; "c"] ["c"; "b"; "a"]
           iterates_scenario iterates_scenario_reversed).
Defined.
